(** * kube-oom-watcher: a shallow embedding of [main.go] and its properties

    The program watches the Kubernetes API for [OOMKilling] node events,
    finds the killed process in the ps-report database, derives the pod UID
    from the process' cgroup path, resolves it in an in-memory index kept by
    a second watch, and posts a message to a webhook.

    Go strings are modelled as [string] (sequences of bytes), [uint64] and
    [int] as [Z] with the range checks of the source written out, the UID
    index as a [gmap] behind a pointer into a small store of maps, the
    database as a list of rows, and the API server, the database and the
    webhook as scripted answers that the code consumes. *)

From Stdlib Require Import ZArith String Ascii List Lia Bool.
From Stdlib Require Import DecimalString DecimalN SpecFloat Sorted.
From stdpp Require Import gmap strings.

Local Open Scope Z_scope.

(** ** Strings *)

Module Str.

(** All bytes of [s] satisfy [p]. *)
Fixpoint all (p : ascii → bool) (s : string) : bool :=
  match s with
  | EmptyString => true
  | String c s' => p c && all p s'
  end.

Lemma app_cons (c : ascii) (s1 s2 : string) :
  String c s1 +:+ s2 = String c (s1 +:+ s2).
Proof. done. Qed.

Lemma app_nil_l (s : string) : EmptyString +:+ s = s.
Proof. done. Qed.

Lemma app_nil_r (s : string) : s +:+ EmptyString = s.
Proof. induction s as [|c s IH]; [done|]. by rewrite app_cons, IH. Qed.

Lemma app_assoc (s1 s2 s3 : string) : (s1 +:+ s2) +:+ s3 = s1 +:+ s2 +:+ s3.
Proof. induction s1 as [|c s1 IH]; [done|]. by rewrite !app_cons, IH. Qed.

Lemma length_app (s1 s2 : string) :
  String.length (s1 +:+ s2) = (String.length s1 + String.length s2)%nat.
Proof. induction s1 as [|c s1 IH]; [done|]. rewrite app_cons. cbn. by rewrite IH. Qed.

Lemma all_app p (s1 s2 : string) : all p (s1 +:+ s2) = all p s1 && all p s2.
Proof.
  induction s1 as [|c s1 IH]; [done|].
  rewrite app_cons. cbn. rewrite IH. by rewrite andb_assoc.
Qed.

End Str.

(** ** Package [regexp]: the fragment the two patterns of [main] use

    A compiled pattern is a sequence of atoms: a literal byte, a greedy
    [x+] over a character class, and a capturing group around such a
    repetition.  Matching is leftmost-first, as Go's [regexp] documents it:
    the leftmost start wins, and at a start the alternatives are tried in
    the order a backtracking matcher would try them, longest repetition
    first. *)

Module regexp.

Inductive atom :=
  | Lit (c : ascii)
  | Plus (cls : ascii → bool)
  | CapPlus (cls : ascii → bool).

Definition Regexp := list atom.

(** [\s]: the class [[\t\n\f\r ]]. *)
Definition space (c : ascii) : bool :=
  match c with
  | "009" | "010" | "012" | "013" | " " => true
  | _ => false
  end%char.

(** [\d]: the class [[0-9]]. *)
Definition digit (c : ascii) : bool :=
  let n := N_of_ascii c in ((48 <=? n) && (n <=? 57))%N.

(** [\w]: the class [[0-9A-Za-z_]]. *)
Definition word (c : ascii) : bool :=
  let n := N_of_ascii c in
  (((48 <=? n) && (n <=? 57)) || ((65 <=? n) && (n <=? 90))
   || ((97 <=? n) && (n <=? 122)) || (n =? 95))%N.

(** [[\w\-]]. *)
Definition word_or_dash (c : ascii) : bool :=
  word c || (N_of_ascii c =? 45)%N.

Fixpoint lits (s : string) : Regexp :=
  match s with
  | EmptyString => []
  | String c s' => Lit c :: lits s'
  end.

(** The ways [cls+] can match a prefix of [s], longest first: the prefix
    taken and what is left. *)
Fixpoint splits (cls : ascii → bool) (s : string) : list (string * string) :=
  match s with
  | EmptyString => []
  | String c s' =>
      if cls c
      then map (λ pr, (String c pr.1, pr.2)) (splits cls s') ++ [(String c EmptyString, s')]
      else []
  end.

Fixpoint first_some {A B} (f : A → option B) (l : list A) : option B :=
  match l with
  | [] => None
  | x :: l' => match f x with Some y => Some y | None => first_some f l' end
  end.

(** Match [re] at the start of [s]: the first success in backtracking
    order, as the text of the group (the last one seen, [cap] before any)
    and the unmatched rest. *)
Fixpoint matchHere (re : Regexp) (s : string) (cap : string)
  : option (string * string) :=
  match re with
  | [] => Some (cap, s)
  | Lit c :: re' =>
      match s with
      | String c' s' => if Ascii.eqb c c' then matchHere re' s' cap else None
      | EmptyString => None
      end
  | Plus cls :: re' =>
      first_some (λ pr, matchHere re' pr.2 cap) (splits cls s)
  | CapPlus cls :: re' =>
      first_some (λ pr, matchHere re' pr.2 pr.1) (splits cls s)
  end.

(** The first [n] bytes of [s]. *)
Fixpoint take (n : nat) (s : string) : string :=
  match n, s with
  | S n', String c s' => String c (take n' s')
  | _, _ => EmptyString
  end.

(** [re.FindStringSubmatch(s)]: [None] is Go's [nil]; otherwise the text
    of the leftmost match followed by the text of its group. *)
Fixpoint FindStringSubmatch (re : Regexp) (s : string) : option (list string) :=
  match matchHere re s EmptyString with
  | Some (cap, rest) =>
      Some [take (String.length s - String.length rest) s; cap]
  | None =>
      match s with
      | EmptyString => None
      | String _ s' => FindStringSubmatch re s'
      end
  end.

End regexp.

(** ** Errors

    The [error] values the program creates or receives, with their
    [Error()] text ([error_Error]) where the program formats it. *)

Inductive StatusReason :=
  | StatusReasonExpired
  | StatusReasonOther (reason : string).

Inductive NumErr := ErrSyntax | ErrRange.

Inductive error :=
  | Errorf (msg : string)                             (* fmt.Errorf *)
  | NumError (func num : string) (err : NumErr)       (* strconv *)
  | StatusError (reason : StatusReason) (msg : string) (* apierrs *)
  | UnexpectedObjectError (msg : string)              (* apierrs *)
  | ErrNoRows                                         (* database/sql *)
  | OtherError (msg : string).      (* database, transport, JSON, client *)

(** The byte 34, the double quote of [%q]. *)
Definition dquote : ascii := ascii_of_N 34.

Definition error_Error (e : error) : string :=
  match e with
  | Errorf msg => msg
  | NumError func num ErrSyntax =>
      "strconv." +:+ func +:+ ": parsing " +:+ String dquote num
        +:+ String dquote ": invalid syntax"
  | NumError func num ErrRange =>
      "strconv." +:+ func +:+ ": parsing " +:+ String dquote num
        +:+ String dquote ": value out of range"
  | StatusError _ msg => msg
  | UnexpectedObjectError msg => msg
  | ErrNoRows => "sql: no rows in result set"
  | OtherError msg => msg
  end.

(** ** Package [strconv]: [ParseUint(s, 10, 64)]

    The loop of the library routine for base 10 and 64 bits, with the
    [uint64] arithmetic wrapping modulo [2^64] as in Go. *)

Module strconv.

Definition maxUint64 : Z := 2 ^ 64 - 1.
Definition cutoff : Z := maxUint64 / 10 + 1.

Definition syntaxError (s0 : string) : error := NumError "ParseUint" s0 ErrSyntax.
Definition rangeError (s0 : string) : error := NumError "ParseUint" s0 ErrRange.

Fixpoint parseLoop (s0 s : string) (n : Z) : Z * option error :=
  match s with
  | EmptyString => (n, None)
  | String c s' =>
      let b := Z.of_N (N_of_ascii c) in
      if (48 <=? b) && (b <=? 57) then
        let d := b - 48 in
        if cutoff <=? n then (maxUint64, Some (rangeError s0))
        else
          let n10 := (n * 10) mod 2 ^ 64 in
          let n1 := (n10 + d) mod 2 ^ 64 in
          if (n1 <? n10) || (maxUint64 <? n1)
          then (maxUint64, Some (rangeError s0))
          else parseLoop s0 s' n1
      else (0, Some (syntaxError s0))
  end.

Definition ParseUint (s : string) : Z * option error :=
  match s with
  | EmptyString => (0, Some (syntaxError s))
  | _ => parseLoop s s 0
  end.

End strconv.

(** ** Package [fmt]: the verbs the program uses *)

Module fmt.

(** [%d] of an unsigned integer. *)
Definition d (n : Z) : string := NilZero.string_of_uint (N.to_uint (Z.to_N n)).

End fmt.

(** ** The data of [main.go] *)

(** [types.UID] is a string. *)
Definition UID := string.

Record PodInfo := { Name : string; Namespace : string }.

Record OOMEvent := { Node : string; PID : Z; Error : option error }.

#[global] Instance PodInfo_eq_dec : EqDecision PodInfo.
Proof. solve_decision. Defined.

(** ** The two patterns compiled in [main] *)

Import regexp.

(** [regexp.Compile("Kill\\s+process\\s+(\\d+)")] *)
Definition pidRegExp : Regexp :=
  lits "Kill" ++ [Plus space] ++ lits "process" ++ [Plus space; CapPlus digit].

(** [regexp.Compile("/pod([\\w\\-]+)/")] *)
Definition cgroupRegExp : Regexp :=
  lits "/pod" ++ [CapPlus word_or_dash] ++ lits "/".

(** ** [extractPID] and [extractUID]

    A Go result [(v, err)] is the pair of the value and [option error],
    [None] for [nil]. *)

Definition extractPID (message : string) : Z * option error :=
  match FindStringSubmatch pidRegExp message with
  | None => (0, Some (Errorf ("Event message does not match: " +:+ message)))
  | Some match_ =>
      let '(pid, err) := strconv.ParseUint (nth 1 match_ EmptyString) in
      match err with
      | Some e => (0, Some e)
      | None => (pid, None)
      end
  end.

Definition extractUID (cgroup : string) : UID * option error :=
  match FindStringSubmatch cgroupRegExp cgroup with
  | None => (EmptyString, Some (Errorf ("Unknown cgroup format: " +:+ cgroup)))
  | Some match_ => (nth 1 match_ EmptyString, None)
  end.

(** ** The Kubernetes objects the program reads *)

Module v1.

Record Pod := {
  Pod_UID : UID;
  Pod_Name : string;
  Pod_Namespace : string;
  Pod_ResourceVersion : string }.

Record ObjectReference := { Ref_Kind : string; Ref_Name : string }.

Record Event := {
  Reason : string;
  Message : string;
  InvolvedObject : ObjectReference;
  Event_ResourceVersion : string }.

End v1.

(** A [runtime.Object] as it arrives in a watch event: the program asks
    for its dynamic type with the assertions to [v1.Pod] and [v1.Event],
    and [apierrs.FromObject] asks for a [metav1.Status]. *)
Inductive Object :=
  | PodObject (pod : v1.Pod)
  | EventObject (event : v1.Event)
  | StatusObject (reason : StatusReason) (message : string)
  | OtherObject (kind : string).

Module watch.

Inductive EventType := Added | Modified | Deleted | Bookmark | Error.

Record Event := { Type_ : EventType; Object_ : Object }.

#[global] Instance EventType_eq_dec : EqDecision EventType.
Proof. solve_decision. Defined.

End watch.

Module apierrs.

(** [apierrs.FromObject]: a [metav1.Status] becomes a [StatusError],
    anything else an [UnexpectedObjectError]. *)
Definition FromObject (obj : Object) : error :=
  match obj with
  | StatusObject reason message => StatusError reason message
  | PodObject _ => UnexpectedObjectError "unexpected object: Pod"
  | EventObject _ => UnexpectedObjectError "unexpected object: Event"
  | OtherObject kind => UnexpectedObjectError ("unexpected object: " +:+ kind)
  end.

End apierrs.

(** The test both restart loops make on the error of a watch:
    the error is an [apierrs.StatusError] and its [ErrStatus.Reason] is
    [metav1.StatusReasonExpired]. *)
Definition isExpired (err : error) : bool :=
  match err with
  | StatusError StatusReasonExpired _ => true
  | _ => false
  end.

(** ** [float64] and the watch timeout

    Go's [float64] is IEEE 754 binary64: the operations are those of the
    standard library's specification of floating-point arithmetic at
    precision 53 and maximal exponent 1024, rounding to nearest, ties to
    even. *)

Module float64.

Definition t := spec_float.

Definition prec : Z := 53.
Definition emax : Z := 1024.

Definition add : t → t → t := SFadd prec emax.
Definition mul : t → t → t := SFmul prec emax.
Definition div : t → t → t := SFdiv prec emax.

(** [float64(n)] of an integer. *)
Definition of_Z (n : Z) : t := binary_normalize prec emax n 0 false.

(** [int64(f)]: the fraction is discarded.  Where the value does not fit
    Go leaves the result to the implementation; amd64 gives [-2^63]. *)
Definition to_int64 (f : t) : Z :=
  match f with
  | S754_zero _ => 0
  | S754_finite s m e =>
      let v := Z.quot (Z.shiftl (cond_Zopp s (Zpos m)) (Z.max e 0)) (2 ^ Z.max (- e) 0) in
      if (- 2 ^ 63 <=? v) && (v <? 2 ^ 63) then v else - 2 ^ 63
  | _ => - 2 ^ 63
  end.

(** A finite number of the format that is at least 0 and below 1: what
    [rand.Float64] documents as its result. *)
Definition unit_interval (r : t) : Prop :=
  valid_binary prec emax r = true ∧
  (r = S754_zero false ∨
   ∃ m e, r = S754_finite false m e ∧ Zpos (digits2_pos m) + e ≤ 0).

End float64.

Module time.

Definition Second : Z := 1000000000.
Definition Minute : Z := 60 * Second.

(** [Duration.Seconds]. *)
Definition Seconds (d : Z) : float64.t :=
  let sec := Z.quot d Second in
  let nsec := Z.rem d Second in
  float64.add (float64.of_Z sec)
    (float64.div (float64.of_Z nsec) (float64.of_Z 1000000000)).

End time.

Definition minWatchTimeout : Z := 5 * time.Minute.

(** [int64(minWatchTimeout.Seconds() * (rand.Float64() + 1.0))], with
    [r] the number [rand.Float64()] returned. *)
Definition timeoutSeconds (r : float64.t) : Z :=
  float64.to_int64
    (float64.mul (time.Seconds minWatchTimeout) (float64.add r (float64.of_Z 1))).

(** ** What the two watchers talk to

    The API server is a script of answers: the answers to the [List] calls
    in the order the calls are made, and the answers to the [Watch] calls,
    each with the number [rand.Float64] returned just before the call.  A
    watch answers with an error or with the events of its result channel up
    to the moment the channel is closed.  When a script runs out the
    goroutine waits for the server.  What a goroutine does to the outside is
    a sequence of actions. *)

Inductive result (A : Type) :=
  | Ok (a : A)
  | Err (e : error).
Arguments Ok {A} a.
Arguments Err {A} e.

(** [v1.PodList] and [v1.EventList]. *)
Record ListOf (A : Type) := { Items : list A; ResourceVersion : string }.
Arguments Items {A} l.
Arguments ResourceVersion {A} l.

Record WatchAnswer := {
  draw : float64.t;
  events : result (list watch.Event) }.

(** The memory the two goroutines of the index share: the maps allocated by
    [make], by address, and the pointer [uidIndex] ([None] is [nil]). *)
Record Globals := {
  heap : list (gmap UID PodInfo);
  uidIndex : option nat }.

Inductive Action :=
  | CallList
  | CallWatch (resourceVersion : string) (timeout : Z)
  | Send (e : OOMEvent)
  | Store (g : Globals).

(** How a goroutine ends: [log.Fatalln] ends the process; otherwise it is
    still waiting for an answer when the script is over. *)
Inductive Ending :=
  | Fatal (e : error)
  | Waiting.

(** ** [eventWatcher] *)

(** The body of [for watchEvent := range watcher.ResultChan()]: the events
    sent on [c], the resource version reached, and the error returned, if
    the loop returned. *)
Fixpoint eventEvents (evs : list watch.Event) (resourceVersion : string)
  : list Action * (string * option error) :=
  match evs with
  | [] => ([], (resourceVersion, None))
  | watchEvent :: evs' =>
      if decide (watch.Type_ watchEvent = watch.Error)
      then ([], (resourceVersion, Some (apierrs.FromObject (watch.Object_ watchEvent))))
      else
        match watch.Object_ watchEvent with
        | EventObject event =>
            let resourceVersion := v1.Event_ResourceVersion event in
            let sent :=
              if negb (bool_decide (watch.Type_ watchEvent = watch.Added)) then []
              else if negb (String.eqb (v1.Reason event) "OOMKilling") then []
              else if negb (String.eqb (v1.Ref_Kind (v1.InvolvedObject event)) "Node") then []
              else
                let node := v1.Ref_Name (v1.InvolvedObject event) in
                let '(pid, err) := extractPID (v1.Message event) in
                (match err with
                 | Some e => [Send {| Node := EmptyString; PID := 0; Error := Some e |}]
                 | None => []
                 end)
                ++ [Send {| Node := node; PID := pid; Error := None |}] in
            let '(acts, r) := eventEvents evs' resourceVersion in
            (sent ++ acts, r)
        | _ => eventEvents evs' resourceVersion
        end
  end.

(** The [for] loop of [internalEventWatcher] around [Watch]: also what is
    left of the script, and [None] for the error when the script is over. *)
Fixpoint eventWatches (watches : list WatchAnswer) (resourceVersion : string)
  : list Action * (list WatchAnswer * option error) :=
  match watches with
  | [] => ([], ([], None))
  | w :: watches' =>
      let call := CallWatch resourceVersion (timeoutSeconds (draw w)) in
      match events w with
      | Err err => ([call], (watches', Some err))
      | Ok evs =>
          let '(acts, (resourceVersion, r)) := eventEvents evs resourceVersion in
          match r with
          | Some err => (call :: acts, (watches', Some err))
          | None =>
              let '(acts', r') := eventWatches watches' resourceVersion in
              (call :: acts ++ acts', r')
          end
      end
  end.

Definition internalEventWatcher (list_ : result (ListOf v1.Event))
    (watches : list WatchAnswer)
  : list Action * (list WatchAnswer * option error) :=
  match list_ with
  | Err err => ([CallList], (watches, Some err))
  | Ok l =>
      let '(acts, r) := eventWatches watches (ResourceVersion l) in
      (CallList :: acts, r)
  end.

Fixpoint eventWatcher (lists : list (result (ListOf v1.Event)))
    (watches : list WatchAnswer) : list Action * Ending :=
  match lists with
  | [] => ([], Waiting)
  | list_ :: lists' =>
      let '(acts, (watches', r)) := internalEventWatcher list_ watches in
      match r with
      | None => (acts, Waiting)
      | Some err =>
          if isExpired err
          then let '(acts', e) := eventWatcher lists' watches' in (acts ++ acts', e)
          else (acts, Fatal err)
      end
  end.

(** ** [podIndexer] *)

(** [make(map[types.UID]PodInfo, 1000)]: a new empty map and its address. *)
Definition makeMap (g : Globals) : nat * Globals :=
  (length (heap g), {| heap := heap g ++ [∅]; uidIndex := uidIndex g |}).

(** [index[uid] = info] on the map at address [index]. *)
Definition mapAssign (index : nat) (uid : UID) (info : PodInfo) (g : Globals)
  : Globals :=
  {| heap := alter (insert uid info) index (heap g); uidIndex := uidIndex g |}.

(** [delete(index, uid)]. *)
Definition mapDelete (index : nat) (uid : UID) (g : Globals) : Globals :=
  {| heap := alter (delete uid) index (heap g); uidIndex := uidIndex g |}.

(** [uidIndex = &index]. *)
Definition publish (index : nat) (g : Globals) : Globals :=
  {| heap := heap g; uidIndex := Some index |}.

Definition podInfo (pod : v1.Pod) : PodInfo :=
  {| Name := v1.Pod_Name pod; Namespace := v1.Pod_Namespace pod |}.

(** [for _, pod := range list.Items { index[pod.UID] = PodInfo{...} }] *)
Fixpoint loadItems (index : nat) (items : list v1.Pod) (g : Globals)
  : list Action * Globals :=
  match items with
  | [] => ([], g)
  | pod :: items' =>
      let g := mapAssign index (v1.Pod_UID pod) (podInfo pod) g in
      let '(acts, g') := loadItems index items' g in
      (Store g :: acts, g')
  end.

(** The body of [for watchEvent := range watcher.ResultChan()]. *)
Fixpoint podEvents (index : nat) (evs : list watch.Event)
    (resourceVersion : string) (g : Globals)
  : list Action * (Globals * string * option error) :=
  match evs with
  | [] => ([], (g, resourceVersion, None))
  | watchEvent :: evs' =>
      if decide (watch.Type_ watchEvent = watch.Error)
      then ([], (g, resourceVersion,
                 Some (apierrs.FromObject (watch.Object_ watchEvent))))
      else
        match watch.Object_ watchEvent with
        | PodObject pod =>
            let resourceVersion := v1.Pod_ResourceVersion pod in
            if decide (watch.Type_ watchEvent = watch.Added) then
              let g := mapAssign index (v1.Pod_UID pod) (podInfo pod) g in
              let '(acts, r) := podEvents index evs' resourceVersion g in
              (Store g :: acts, r)
            else if decide (watch.Type_ watchEvent = watch.Deleted) then
              let g := mapDelete index (v1.Pod_UID pod) g in
              let '(acts, r) := podEvents index evs' resourceVersion g in
              (Store g :: acts, r)
            else podEvents index evs' resourceVersion g
        | _ => podEvents index evs' resourceVersion g
        end
  end.

(** The [for] loop of [internalPodIndexer] around [Watch]. *)
Fixpoint podWatches (index : nat) (watches : list WatchAnswer)
    (resourceVersion : string) (g : Globals)
  : list Action * (Globals * list WatchAnswer * option error) :=
  match watches with
  | [] => ([], (g, [], None))
  | w :: watches' =>
      let call := CallWatch resourceVersion (timeoutSeconds (draw w)) in
      match events w with
      | Err err => ([call], (g, watches', Some err))
      | Ok evs =>
          let '(acts, (g, resourceVersion, r)) :=
            podEvents index evs resourceVersion g in
          match r with
          | Some err => (call :: acts, (g, watches', Some err))
          | None =>
              let '(acts', r') := podWatches index watches' resourceVersion g in
              (call :: acts ++ acts', r')
          end
      end
  end.

(** How one call of [internalPodIndexer] ends: it returns an error, it
    ends the process itself (the [log.Fatalln] after [List]), or it is
    still running when the script is over. *)
Inductive Return :=
  | Returned (err : error)
  | Exited (err : error)
  | Running.

Definition internalPodIndexer (list_ : result (ListOf v1.Pod))
    (watches : list WatchAnswer) (g : Globals)
  : list Action * (Globals * list WatchAnswer * Return) :=
  match list_ with
  | Err err => ([CallList], (g, watches, Exited err))
  | Ok l =>
      let '(index, g1) := makeMap g in
      let '(acts, g2) := loadItems index (Items l) g1 in
      let resourceVersion := ResourceVersion l in
      let g3 := publish index g2 in
      let '(acts', (g4, watches', r)) :=
        podWatches index watches resourceVersion g3 in
      (CallList :: Store g1 :: acts ++ Store g3 :: acts',
       (g4, watches',
        match r with Some err => Returned err | None => Running end))
  end.

Fixpoint podIndexer (lists : list (result (ListOf v1.Pod)))
    (watches : list WatchAnswer) (g : Globals)
  : list Action * (Globals * Ending) :=
  match lists with
  | [] => ([], (g, Waiting))
  | list_ :: lists' =>
      let '(acts, (g', watches', r)) := internalPodIndexer list_ watches g in
      match r with
      | Running => (acts, (g', Waiting))
      | Exited err => (acts, (g', Fatal err))
      | Returned err =>
          if isExpired err
          then
            let '(acts', e) := podIndexer lists' watches' g' in
            (acts ++ acts', e)
          else (acts, (g', Fatal err))
      end
  end.

(** The memory when [main] starts the goroutines. *)
Definition initial : Globals := {| heap := []; uidIndex := None |}.

(** ** The ps-report database

    The table [records] and the clock of the database server, or a
    database that answers every query with an error. *)

#[global] Instance NumErr_eq_dec : EqDecision NumErr.
Proof. solve_decision. Defined.
#[global] Instance StatusReason_eq_dec : EqDecision StatusReason.
Proof. solve_decision. Defined.
#[global] Instance error_eq_dec : EqDecision error.
Proof. solve_decision. Defined.

Module sql.

Record Row := {
  hostname : string;
  pid : Z;
  ts : Z;
  cgroup : string;
  nspid : Z }.

Inductive DB :=
  | Down (err : error)
  | Up (records : list Row) (current_timestamp : Z).

(** [WHERE hostname = $1 AND pid = $2 AND ts < current_timestamp] *)
Definition where_ (arg1 : string) (arg2 : Z) (current_timestamp : Z) (r : Row)
  : bool :=
  String.eqb (hostname r) arg1 && (pid r =? arg2) && (ts r <? current_timestamp).

(** [ORDER BY ts DESC] *)
Fixpoint insertDesc (r : Row) (l : list Row) : list Row :=
  match l with
  | [] => [r]
  | x :: l' => if ts x <? ts r then r :: x :: l' else x :: insertDesc r l'
  end.

Definition orderByTsDesc (l : list Row) : list Row := foldr insertDesc [] l.

(** The rows the statement of [handleOOM] returns: those of the [WHERE]
    clause, ordered, [LIMIT 1]. *)
Definition selectRows (records : list Row) (current_timestamp : Z)
    (arg1 : string) (arg2 : Z) : list Row :=
  firstn 1 (orderByTsDesc (filter (λ r, where_ arg1 arg2 current_timestamp r = true) records)).

(** [db.QueryRow(query, $1, $2).Scan(&cgroup, &nspid)]: the values left
    in [cgroup] and [nspid], and the error. *)
Definition QueryRow (db : DB) (arg1 : string) (arg2 : Z)
  : string * Z * option error :=
  match db with
  | Down err => (EmptyString, 0, Some err)
  | Up records current_timestamp =>
      match selectRows records current_timestamp arg1 arg2 with
      | [] => (EmptyString, 0, Some ErrNoRows)
      | r :: _ => (cgroup r, nspid r, None)
      end
  end.

End sql.

(** ** The webhook *)

Module http.

Record Request := {
  url : string;
  contentType : string;
  body : string }.

(** What [http.Post] gives back: an error, or a response with its
    [StatusCode] and [Status]. *)
Inductive Answer :=
  | Failed (err : error)
  | Response (StatusCode : Z) (Status : string).

End http.

(** ** [postMessage], [handleError], [handleOOM] and the loop of [main]

    [json.Marshal] is a parameter, as are the value of the flag
    [-webhook-url] and the webhook itself, which answers the [n]-th request
    it receives with [respond n].  The requests made so far are threaded
    through the calls. *)

(** How a call made by the loop of [main] ends: it returns its error
    ([None] for [nil]), or the goroutine panics. *)
Inductive Outcome :=
  | Done (err : option error)
  | Panic (msg : string).

Section consumer.

Variable Marshal : gmap string string → string * option error.
Variable webhookURL : string.
Variable respond : nat → http.Answer.

Definition postMessage (data : gmap string string) (posted : list http.Request)
  : list http.Request * option error :=
  let '(jsonValue, err) := Marshal data in
  match err with
  | Some e => (posted, Some e)
  | None =>
      let request :=
        {| http.url := webhookURL;
           http.contentType := "application/json";
           http.body := jsonValue |} in
      match respond (length posted) with
      | http.Failed e => (posted ++ [request], Some e)
      | http.Response StatusCode Status =>
          if (StatusCode <? 200) || (299 <? StatusCode)
          then (posted ++ [request], Some (Errorf ("Failed to POST: " +:+ Status)))
          else (posted ++ [request], None)
      end
  end.

Definition handleError (err : error) (posted : list http.Request)
  : list http.Request * option error :=
  postMessage
    (<["username" := "OOM watcher"]> (<["text" := "Error: " +:+ error_Error err]> ∅))
    posted.

Definition handleOOM (event : OOMEvent) (g : Globals) (db : sql.DB)
    (posted : list http.Request) : list http.Request * Outcome :=
  let '(cgroup, nspid, err) := sql.QueryRow db (Node event) (PID event) in
  if decide (err = Some ErrNoRows) then
    (posted, Done (Some (Errorf ("No ps record for node " +:+ Node event
                                   +:+ " and PID " +:+ fmt.d (PID event)))))
  else
    match err with
    | Some e => (posted, Done (Some e))
    | None =>
        let '(uid, err) := extractUID cgroup in
        match err with
        | Some e => (posted, Done (Some e))
        | None =>
            match uidIndex g with
            | None => (posted, Done (Some (Errorf "UID index not ready")))
            | Some p =>
                match heap g !! p with
                | None => (posted, Panic "invalid memory address or nil pointer dereference")
                | Some index =>
                    match index !! uid with
                    | None =>
                        (posted, Done (Some (Errorf ("Pod with UID " +:+ uid +:+ " is not known"))))
                    | Some pod =>
                        let '(posted, err) :=
                          postMessage
                            (<["username" := "OOM watcher"]>
                               (<["text" := "OOM in pod " +:+ Namespace pod +:+ "/"
                                    +:+ Name pod +:+ " (node: " +:+ Node event
                                    +:+ ", PID: " +:+ fmt.d (PID event)
                                    +:+ ", NSPID: " +:+ fmt.d nspid +:+ ")"]> ∅))
                            posted in
                        (posted, Done err)
                    end
                end
            end
        end
    end.

(** What the loop of [main] has done so far: the requests made to the
    webhook, the lines written by [log.Println], and whether the
    goroutine has panicked. *)
Record Main := {
  posted : list http.Request;
  logged : list string;
  panicked : bool }.

(** One turn of [for oomEvent := range eventCh], with the shared memory
    and the database as they are during the turn. *)
Definition mainStep (st : Main) (turn : OOMEvent * Globals * sql.DB) : Main :=
  let '(oomEvent, g, db) := turn in
  if panicked st then st
  else
    let '(posted, out) :=
      match Error oomEvent with
      | None =>
          let '(posted, out) := handleOOM oomEvent g db (posted st) in
          match out with
          | Done (Some err) =>
              let '(posted, err) := handleError err posted in (posted, Done err)
          | _ => (posted, out)
          end
      | Some e =>
          let '(posted, err) := handleError e (posted st) in (posted, Done err)
      end in
    match out with
    | Panic _ => {| posted := posted; logged := logged st; panicked := true |}
    | Done (Some err) =>
        {| posted := posted; logged := logged st ++ [error_Error err]; panicked := false |}
    | Done None => {| posted := posted; logged := logged st; panicked := false |}
    end.

Definition mainLoop (turns : list (OOMEvent * Globals * sql.DB)) (st : Main) : Main :=
  fold_left mainStep turns st.

End consumer.

(** * The vocabulary of the properties *)

(** ** A declarative reading of the patterns *)

Module regexp_sem.

Import regexp.

(** [Matches re s cap cap' rest]: [re] matches a prefix of [s] and leaves
    [rest]; the group matched [cap'], or no group was met and [cap' =
    cap]. *)
Inductive Matches : Regexp → string → string → string → string → Prop :=
  | M_nil s cap : Matches [] s cap cap s
  | M_lit c re s cap cap' rest :
      Matches re s cap cap' rest →
      Matches (Lit c :: re) (String c s) cap cap' rest
  | M_plus cls re p r cap cap' rest :
      p ≠ EmptyString → Str.all cls p = true →
      Matches re r cap cap' rest →
      Matches (Plus cls :: re) (p +:+ r) cap cap' rest
  | M_cap cls re p r cap cap' rest :
      p ≠ EmptyString → Str.all cls p = true →
      Matches re r p cap' rest →
      Matches (CapPlus cls :: re) (p +:+ r) cap cap' rest.

Definition starts_with (cls : ascii → bool) (s : string) : bool :=
  match s with
  | EmptyString => false
  | String c _ => cls c
  end.

End regexp_sem.

(** A [/pod<uid>/] segment of a cgroup path: [pre] is what precedes it and
    [rest] what follows, and [uid] is a non-empty run of [[\w\-]]. *)
Definition UidSegment (cgroup pre uid rest : string) : Prop :=
  cgroup = pre +:+ "/pod" +:+ uid +:+ "/" +:+ rest ∧
  uid ≠ EmptyString ∧ Str.all word_or_dash uid = true.

(** A match of [Kill\s+process\s+(\d+)] in a message: [pre] precedes
    it, [ds] is the text of the group and [rest] follows the match. *)
Definition PidMatch (message pre ds rest : string) : Prop :=
  ∃ ws1 ws2,
    message = pre +:+ "Kill" +:+ ws1 +:+ "process" +:+ ws2 +:+ ds +:+ rest ∧
    ws1 ≠ EmptyString ∧ Str.all space ws1 = true ∧
    ws2 ≠ EmptyString ∧ Str.all space ws2 = true ∧
    ds ≠ EmptyString ∧ Str.all digit ds = true.

(** The leftmost match of the pattern, with the longest group. *)
Definition LeftmostPidMatch (message pre ds rest : string) : Prop :=
  PidMatch message pre ds rest ∧
  regexp_sem.starts_with digit rest = false ∧
  ∀ pre' ds' rest', PidMatch message pre' ds' rest' →
    (String.length pre ≤ String.length pre')%nat.

(** The number a string of decimal digits denotes, continuing from [n]. *)
Fixpoint decimal_from (n : Z) (ds : string) : Z :=
  match ds with
  | EmptyString => n
  | String c ds' => decimal_from (n * 10 + (Z.of_N (N_of_ascii c) - 48)) ds'
  end.

Definition decimal (ds : string) : Z := decimal_from 0 ds.

(** The extraction as the specification words it: the pattern
    [Kill process (\d+)], with its two single spaces, in place of the
    pattern of [main]. *)
Definition specPidRegExp : Regexp := lits "Kill process " ++ [CapPlus digit].

Definition spec_extractPID (message : string) : Z * option error :=
  match FindStringSubmatch specPidRegExp message with
  | None => (0, Some (Errorf ("Event message does not match: " +:+ message)))
  | Some match_ =>
      let '(pid, err) := strconv.ParseUint (nth 1 match_ EmptyString) in
      match err with
      | Some e => (0, Some e)
      | None => (pid, None)
      end
  end.

(** A watch event that passes the three filters of the event watcher: an
    added [Event] with reason [OOMKilling] about an object of kind [Node]. *)
Definition oomKilling (node message resourceVersion : string) : watch.Event :=
  {| watch.Type_ := watch.Added;
     watch.Object_ :=
       EventObject
         {| v1.Reason := "OOMKilling";
            v1.Message := message;
            v1.InvolvedObject := {| v1.Ref_Kind := "Node"; v1.Ref_Name := node |};
            v1.Event_ResourceVersion := resourceVersion |} |}.

(** The lookup as the specification words it: records with a timestamp at
    or before the query time qualify. *)
Definition spec_where (node : string) (processId : Z) (now : Z) (r : sql.Row)
  : bool :=
  String.eqb (sql.hostname r) node && (sql.pid r =? processId) && (sql.ts r <=? now).

Definition spec_selectRows (records : list sql.Row) (now : Z)
    (node : string) (processId : Z) : list sql.Row :=
  firstn 1 (sql.orderByTsDesc (filter (λ r, spec_where node processId now r = true) records)).

(** A row of the table is a candidate of the lookup of [handleOOM]. *)
Definition Candidate (node : string) (processId : Z) (now : Z) (r : sql.Row)
  : Prop :=
  sql.hostname r = node ∧ sql.pid r = processId ∧ sql.ts r < now.

(** Two records of process 500 on [node-3], taken at the times 90 and
    100. *)
Definition record_at_90 : sql.Row :=
  {| sql.hostname := "node-3"; sql.pid := 500; sql.ts := 90;
     sql.cgroup := "/kubepods/burstable/podold/c0"; sql.nspid := 11 |}.

Definition record_at_100 : sql.Row :=
  {| sql.hostname := "node-3"; sql.pid := 500; sql.ts := 100;
     sql.cgroup := "/kubepods/burstable/podu1/c0"; sql.nspid := 12 |}.

(** ** Notifications of the pod watch *)

(** The add, remove and modify notifications about pods, and the watch
    events that carry them. *)
Inductive Notification :=
  | Add (pod : v1.Pod)
  | Remove (pod : v1.Pod)
  | Modify (pod : v1.Pod).

Definition notify (n : Notification) : watch.Event :=
  match n with
  | Add pod => {| watch.Type_ := watch.Added; watch.Object_ := PodObject pod |}
  | Remove pod => {| watch.Type_ := watch.Deleted; watch.Object_ := PodObject pod |}
  | Modify pod => {| watch.Type_ := watch.Modified; watch.Object_ := PodObject pod |}
  end.

(** [n] adds or removes the pod with this UID. *)
Definition touches (uid : UID) (n : Notification) : Prop :=
  match n with
  | Add pod | Remove pod => v1.Pod_UID pod = uid
  | Modify _ => False
  end.

(** The last notification of [ns] that adds or removes [uid] is the
    addition of [pod]. *)
Definition LastAdded (uid : UID) (pod : v1.Pod) (ns : list Notification) : Prop :=
  ∃ pre post,
    ns = pre ++ Add pod :: post ∧ v1.Pod_UID pod = uid ∧
    Forall (λ n, ¬ touches uid n) post.

Definition addedUIDs (ns : list Notification) : gset UID :=
  list_to_set (omap (λ n, match n with Add pod => Some (v1.Pod_UID pod) | _ => None end) ns).

Definition removedUIDs (ns : list Notification) : gset UID :=
  list_to_set (omap (λ n, match n with Remove pod => Some (v1.Pod_UID pod) | _ => None end) ns).

(** What a notification does to a map from UIDs to pod records. *)
Definition applyNotification (m : gmap UID PodInfo) (n : Notification)
  : gmap UID PodInfo :=
  match n with
  | Add pod => <[v1.Pod_UID pod := podInfo pod]> m
  | Remove pod => delete (v1.Pod_UID pod) m
  | Modify _ => m
  end.

(** A watch of the script that delivers these notifications and then
    times out. *)
Definition session (s : float64.t * list Notification) : WatchAnswer :=
  {| draw := s.1; events := Ok (notify <$> s.2) |}.

(** The pod [web-7] of namespace [prod], with UID [u1]. *)
Definition pod_u1 : v1.Pod :=
  {| v1.Pod_UID := "u1"; v1.Pod_Name := "web-7"; v1.Pod_Namespace := "prod";
     v1.Pod_ResourceVersion := "7" |}.

(** The notifications seen since the start of a call of
    [internalPodIndexer]: the items of the snapshot, as additions, and then
    the notifications of the watches in their order. *)
Definition seen (l : ListOf v1.Pod) (ss : list (float64.t * list Notification))
  : list Notification :=
  (Add <$> Items l) ++ concat (snd <$> ss).

(** ** How a watch ends *)

(** The error with which the loop over the result channel returns: the
    first event of type [Error], turned into an error by
    [apierrs.FromObject]; [None] when the channel is closed without one. *)
Fixpoint firstError (evs : list watch.Event) : option error :=
  match evs with
  | [] => None
  | ev :: evs' =>
      if decide (watch.Type_ ev = watch.Error)
      then Some (apierrs.FromObject (watch.Object_ ev))
      else firstError evs'
  end.

(** The error with which a watch iteration ends: the error of the [Watch]
    call, or the first error of its channel. *)
Definition watchError (w : WatchAnswer) : option error :=
  match events w with
  | Err err => Some err
  | Ok evs => firstError evs
  end.

(** A watch whose channel delivers the status [Expired]: the resource
    version is too old. *)
Definition expiredWatch : WatchAnswer :=
  {| draw := S754_zero false;
     events :=
       Ok [{| watch.Type_ := watch.Error;
              watch.Object_ := StatusObject StatusReasonExpired "too old resource version" |}] |}.

(** ** Alerts *)

(** The payload of the alert for an error, and of the alert for a pod. *)
Definition errorAlert (err : error) : gmap string string :=
  <["username" := "OOM watcher"]> (<["text" := "Error: " +:+ error_Error err]> ∅).

Definition podAlert (pod : PodInfo) (event : OOMEvent) (nspid : Z)
  : gmap string string :=
  <["username" := "OOM watcher"]>
    (<["text" := "OOM in pod " +:+ Namespace pod +:+ "/" +:+ Name pod
         +:+ " (node: " +:+ Node event +:+ ", PID: " +:+ fmt.d (PID event)
         +:+ ", NSPID: " +:+ fmt.d nspid +:+ ")"]> ∅).

(** The three ways one OOM occurrence stays unresolved, with the error of
    each: the database has no record of the process, the cgroup path of the
    record has no pod segment, the index does not know the UID. *)
Inductive Unresolved (event : OOMEvent) (g : Globals) : sql.DB → error → Prop :=
  | NoRecord records now :
      sql.selectRows records now (Node event) (PID event) = [] →
      Unresolved event g (sql.Up records now)
        (Errorf ("No ps record for node " +:+ Node event
                   +:+ " and PID " +:+ fmt.d (PID event)))
  | MalformedPath records now r rest uid err :
      sql.selectRows records now (Node event) (PID event) = r :: rest →
      extractUID (sql.cgroup r) = (uid, Some err) →
      Unresolved event g (sql.Up records now) err
  | UnknownUID records now r rest uid p index :
      sql.selectRows records now (Node event) (PID event) = r :: rest →
      extractUID (sql.cgroup r) = (uid, None) →
      uidIndex g = Some p → heap g !! p = Some index → index !! uid = None →
      Unresolved event g (sql.Up records now)
        (Errorf ("Pod with UID " +:+ uid +:+ " is not known")).

(** The OOM occurrence is resolved to [pod], with the nested process id of
    the record. *)
Definition Resolved (event : OOMEvent) (g : Globals) (db : sql.DB)
    (pod : PodInfo) (nspid : Z) : Prop :=
  ∃ records now r rest uid p index,
    db = sql.Up records now ∧
    sql.selectRows records now (Node event) (PID event) = r :: rest ∧
    extractUID (sql.cgroup r) = (uid, None) ∧
    uidIndex g = Some p ∧ heap g !! p = Some index ∧
    index !! uid = Some pod ∧ sql.nspid r = nspid.

(** The signal of the end-to-end example, and a webhook that accepts
    everything. *)
Definition signal_node3_500 : OOMEvent :=
  {| Node := "node-3"; PID := 500; Error := None |}.

Definition emptyMarshal (data : gmap string string) : string * option error :=
  ("{}", None).

Definition accepting (n : nat) : http.Answer := http.Response 200 "200 OK".

Definition startOfMain : Main :=
  {| posted := []; logged := []; panicked := false |}.

(** ** The shared memory *)

(** The memory states a goroutine has written, in order. *)
Definition stores (acts : list Action) : list Globals :=
  omap (λ a, match a with Store g => Some g | _ => None end) acts.

(** [uidIndex] is [nil] or points to an allocated map. *)
Definition allocated (g : Globals) : Prop :=
  ∀ p, uidIndex g = Some p → (p < length (heap g))%nat.

(** Same maps allocated, same pointer. *)
Definition same_shape (g g' : Globals) : Prop :=
  length (heap g') = length (heap g) ∧ uidIndex g' = uidIndex g.

(** ** Watch timeouts *)

(** The timeouts, in seconds, that a goroutine has passed to [Watch]. *)
Definition timeouts (acts : list Action) : list Z :=
  omap (λ a, match a with CallWatch _ t => Some t | _ => None end) acts.
Arguments timeouts : simpl never.

(** The largest [float64] below 1: [1 - 2^-53]. *)
Definition largestBelowOne : float64.t :=
  S754_finite false (2 ^ 53 - 1)%positive (-53).

(** The base [T] of the timeout in seconds: [minWatchTimeout] is five
    minutes. *)
Definition T : Z := minWatchTimeout / time.Second.

(** A watch that is opened after [rand.Float64] returned [r] and whose
    channel is closed without an event. *)
Definition quietWatch (r : float64.t) : WatchAnswer :=
  {| draw := r; events := Ok [] |}.

(** A list call that answers with no item. *)
Definition emptyList {A} : result (ListOf A) :=
  Ok {| Items := []; ResourceVersion := "1" |}.

(** ** The signals of the event watcher *)

(** The signals a goroutine has sent on the channel, in order. *)
Definition sent (acts : list Action) : list OOMEvent :=
  omap (λ a, match a with Send e => Some e | _ => None end) acts.
Arguments sent : simpl never.

(** The events of the result channel of a watch; none when [Watch]
    itself failed. *)
Definition channel (w : WatchAnswer) : list watch.Event :=
  match events w with
  | Ok evs => evs
  | Err _ => []
  end.

(** The event passes the filters of the event watcher: it is the addition
    of a [v1.Event] with reason [OOMKilling] about an object of kind
    [Node]. *)
Definition qualifies (ev : watch.Event) : bool :=
  match watch.Object_ ev with
  | EventObject event =>
      bool_decide (watch.Type_ ev = watch.Added)
      && String.eqb (v1.Reason event) "OOMKilling"
      && String.eqb (v1.Ref_Kind (v1.InvolvedObject event)) "Node"
  | _ => false
  end.

(** The signals of one event of the channel. *)
Definition signals (ev : watch.Event) : list OOMEvent :=
  match watch.Object_ ev with
  | EventObject event =>
      if qualifies ev then
        let node := v1.Ref_Name (v1.InvolvedObject event) in
        match extractPID (v1.Message event) with
        | (pid, None) => [{| Node := node; PID := pid; Error := None |}]
        | (pid, Some e) =>
            [{| Node := EmptyString; PID := 0; Error := Some e |};
             {| Node := node; PID := pid; Error := None |}]
        end
      else []
  | _ => []
  end.

(** The events of a channel that come before its first event of type
    [Error]. *)
Fixpoint untilError (evs : list watch.Event) : list watch.Event :=
  match evs with
  | [] => []
  | ev :: evs' =>
      if decide (watch.Type_ ev = watch.Error) then [] else ev :: untilError evs'
  end.

(** What the consumer may rely on in a signal: the PID fits [uint64], and
    a failure signal has the zero values for node and PID. *)
Definition wellFormed (e : OOMEvent) : Prop :=
  0 ≤ PID e ≤ strconv.maxUint64 ∧
  (Error e ≠ None → Node e = EmptyString ∧ PID e = 0).

(** ** The resource versions of the watches *)

(** The resource versions a goroutine has passed to [Watch], in order. *)
Definition versions (acts : list Action) : list string :=
  omap (λ a, match a with CallWatch rv _ => Some rv | _ => None end) acts.
Arguments versions : simpl never.

(** The resource version of the object of a watch event, when the object
    is a [v1.Event], and when it is a [v1.Pod]. *)
Definition eventVersion (ev : watch.Event) : option string :=
  match watch.Object_ ev with
  | EventObject event => Some (v1.Event_ResourceVersion event)
  | _ => None
  end.

Definition podVersion (ev : watch.Event) : option string :=
  match watch.Object_ ev with
  | PodObject pod => Some (v1.Pod_ResourceVersion pod)
  | _ => None
  end.

(** The resource version of the last object among [evs] that has one, and
    [rv] when there is none. *)
Definition lastVersion (version : watch.Event → option string) (rv : string)
    (evs : list watch.Event) : string :=
  default rv (last (omap version evs)).

(** The resource version after the first [k] watches of the script. *)
Definition versionAfter (version : watch.Event → option string) (rv : string)
    (watches : list WatchAnswer) (k : nat) : string :=
  lastVersion version rv (concat (channel <$> firstn k watches)).

(** ** What the pod indexer does to the shared memory *)

(** Every map of [g] is in [g1], at its address, as it was. *)
Definition keeps (g g1 : Globals) : Prop :=
  ∀ i m, heap g !! i = Some m → heap g1 !! i = Some m.

(** From [g] to [g1] nothing but the map at [index] was written, and that
    map by additions and removals of pods. *)
Definition evolves (index : nat) (g g1 : Globals) : Prop :=
  same_shape g g1 ∧
  (∀ i, i ≠ index → heap g1 !! i = heap g !! i) ∧
  (∀ m, heap g !! index = Some m →
        ∃ ns, heap g1 !! index = Some (foldl applyNotification m ns)).

(** [m] holds a whole snapshot: it is what the items of the snapshot, as
    additions, and some notifications after them leave. *)
Definition built_from (items : list v1.Pod) (m : gmap UID PodInfo) : Prop :=
  ∃ ns, m = foldl applyNotification ∅ ((Add <$> items) ++ ns).



(** The pod a record of the index stands for. *)
Definition podOf (uid : UID) (info : PodInfo) : v1.Pod :=
  {| v1.Pod_UID := uid; v1.Pod_Name := Name info;
     v1.Pod_Namespace := Namespace info; v1.Pod_ResourceVersion := EmptyString |}.

(** ** Calls of [List] *)

(** How many times a goroutine has called [List]. *)
Definition listCalls (acts : list Action) : nat :=
  length (omap (λ a, match a with CallList => Some () | _ => None end) acts).
Arguments listCalls : simpl never.

(** ** Requests to the webhook *)

(** The request [postMessage] makes for a payload. *)
Definition requestFor (Marshal : gmap string string → string * option error)
    (webhookURL : string) (data : gmap string string) : http.Request :=
  {| http.url := webhookURL;
     http.contentType := "application/json";
     http.body := (Marshal data).1 |}.

(** A webhook that answers every request with the status 500. *)
Definition rejecting (n : nat) : http.Answer :=
  http.Response 500 "500 Internal Server Error".

(** A memory in which the index is published and holds the pod [old]. *)
Definition memory_with_old : Globals :=
  {| heap := [{[ "old" := {| Name := "db-0"; Namespace := "prod" |} ]}];
     uidIndex := Some 0%nat |}.

(** The memory after the publication of a call that started in [g] with
    the snapshot [items]. *)
Definition published (items : list v1.Pod) (g g1 : Globals) : Prop :=
  uidIndex g1 = Some (length (heap g)) ∧
  length (heap g1) = S (length (heap g)) ∧
  keeps g g1 ∧
  ∃ m, heap g1 !! length (heap g) = Some m ∧ built_from items m.

(** * Properties *)

(** ** The matcher against a declarative reading of the patterns *)

Module regexp_facts.

Import regexp regexp_sem.

Lemma elem_of_splits cls s p r :
  (p, r) ∈ splits cls s ↔
  s = p +:+ r ∧ p ≠ EmptyString ∧ Str.all cls p = true.
Proof.
  revert p r. induction s as [|c s IH]; intros p r; cbn.
  - split; [by intros ?%elem_of_nil|].
    intros (Hs & Hp & _). destruct p; [done|]. by rewrite Str.app_cons in Hs.
  - destruct (cls c) eqn:Hc.
    + rewrite elem_of_app, list_elem_of_fmap, list_elem_of_singleton. split.
      * intros [([p' r'] & [= -> ->] & Hin)|[= -> ->]].
        -- apply IH in Hin as (-> & Hp & Hall). cbn.
           rewrite Str.app_cons, Hc, Hall. done.
        -- cbn. rewrite Str.app_cons, Str.app_nil_l, Hc. done.
      * intros (Hs & Hp & Hall). destruct p as [|c' p]; [done|].
        rewrite Str.app_cons in Hs. injection Hs as <- ->.
        cbn in Hall. apply andb_true_iff in Hall as [_ Hall].
        destruct p as [|c'' p].
        -- right. by rewrite Str.app_nil_l.
        -- left. exists (String c'' p, r). split; [done|].
           apply IH. done.
    + split; [by intros ?%elem_of_nil|].
      intros (Hs & Hp & Hall). destruct p as [|c' p]; [done|].
      rewrite Str.app_cons in Hs. injection Hs as <- ->.
      cbn in Hall. by rewrite Hc in Hall.
Qed.

Lemma first_some_Some {A B} (f : A → option B) l y :
  first_some f l = Some y → ∃ x, x ∈ l ∧ f x = Some y.
Proof.
  induction l as [|x l IH]; cbn; [done|].
  destruct (f x) eqn:Hx.
  - intros [= ->]. exists x. split; [left|done].
  - intros (x' & Hin & Hf)%IH. exists x'. split; [by right|done].
Qed.

Lemma first_some_None {A B} (f : A → option B) l x :
  first_some f l = None → x ∈ l → f x = None.
Proof.
  induction l as [|x' l IH]; cbn; [by intros _ ?%elem_of_nil|].
  destruct (f x') eqn:Hx; [done|].
  intros Hl [->|Hin]%elem_of_cons; auto.
Qed.

Lemma matchHere_sound re s cap cap' rest :
  matchHere re s cap = Some (cap', rest) → Matches re s cap cap' rest.
Proof.
  revert s cap. induction re as [|[c|cls|cls] re IH]; intros s cap; cbn.
  - intros [= -> ->]. constructor.
  - destruct s as [|c' s]; [done|].
    destruct (Ascii.eqb_spec c c') as [->|]; [|done].
    intros ?%IH. by constructor.
  - intros ([p r] & (-> & Hp & Hall)%elem_of_splits & Hm%IH)%first_some_Some.
    by constructor.
  - intros ([p r] & (-> & Hp & Hall)%elem_of_splits & Hm%IH)%first_some_Some.
    by constructor.
Qed.

Lemma matchHere_complete re s cap cap' rest :
  Matches re s cap cap' rest → matchHere re s cap ≠ None.
Proof.
  induction 1 as [|c re s cap cap' rest _ IH
                  |cls re p r cap cap' rest Hp Hall _ IH
                  |cls re p r cap cap' rest Hp Hall _ IH]; cbn.
  - done.
  - by rewrite Ascii.eqb_refl.
  - intros Hnone. apply IH.
    apply (first_some_None _ _ (p, r) Hnone). by apply elem_of_splits.
  - intros Hnone. apply IH.
    apply (first_some_None _ _ (p, r) Hnone). by apply elem_of_splits.
Qed.

(** The first way [splits] lists is the longest. *)
Lemma splits_head cls s p r l :
  splits cls s = (p, r) :: l → starts_with cls r = false.
Proof.
  revert p r l. induction s as [|c s IH]; intros p r l; cbn; [done|].
  destruct (cls c) eqn:Hc; [|done].
  destruct (splits cls s) as [|[p' r'] l'] eqn:Hs; cbn.
  - intros [= <- <- <-]. destruct s as [|c' s]; [done|]. cbn in *.
    destruct (cls c'); [|done]. by destruct (map _ _).
  - intros [= <- <- <-]. by eapply IH.
Qed.

(** A pattern that ends in a group [(x+)] leaves no [x] behind. *)
Lemma matchHere_greedy cls re s cap cap' rest :
  matchHere (re ++ [CapPlus cls]) s cap = Some (cap', rest) →
  starts_with cls rest = false.
Proof.
  revert s cap. induction re as [|[c|cls'|cls'] re IH]; intros s cap; cbn.
  - destruct (splits cls s) as [|[p r] l] eqn:Hs; cbn; [done|].
    intros [= <- <-]. by eapply splits_head.
  - destruct s as [|c' s]; [done|]. destruct (Ascii.eqb c c'); [apply IH|done].
  - intros (pr & _ & Hm)%first_some_Some. by eapply IH.
  - intros (pr & _ & Hm)%first_some_Some. by eapply IH.
Qed.

Lemma Find_eq re s :
  FindStringSubmatch re s =
  match matchHere re s EmptyString with
  | Some (cap, rest) =>
      Some [take (String.length s - String.length rest) s; cap]
  | None =>
      match s with
      | EmptyString => None
      | String _ s' => FindStringSubmatch re s'
      end
  end.
Proof. by destruct s. Qed.

(** [FindStringSubmatch] finds nothing exactly when the pattern matches
    at no position. *)
Lemma Find_None re s :
  FindStringSubmatch re s = None →
  ∀ pre s', s = pre +:+ s' → matchHere re s' EmptyString = None.
Proof.
  induction s as [|c s IH]; rewrite Find_eq.
  - destruct (matchHere re EmptyString EmptyString) as [[??]|] eqn:Hm; [done|].
    intros _ pre s' Hs. destruct pre; [|done]. by rewrite Str.app_nil_l in Hs; subst.
  - destruct (matchHere re (String c s) EmptyString) as [[??]|] eqn:Hm; [done|].
    intros Hf pre s' Hs. destruct pre as [|c' pre].
    + rewrite Str.app_nil_l in Hs. by subst.
    + rewrite Str.app_cons in Hs. injection Hs as <- ->. by eapply IH.
Qed.

(** What it finds is the match at the leftmost position that has one. *)
Lemma Find_Some re s l :
  FindStringSubmatch re s = Some l →
  ∃ pre s' cap rest,
    s = pre +:+ s' ∧ matchHere re s' EmptyString = Some (cap, rest) ∧
    nth 1 l EmptyString = cap ∧
    ∀ pre2 s2, s = pre2 +:+ s2 →
      (String.length pre2 < String.length pre)%nat →
      matchHere re s2 EmptyString = None.
Proof.
  revert l. induction s as [|c s IH]; intros l; rewrite Find_eq.
  - destruct (matchHere re EmptyString EmptyString) as [[cap rest]|] eqn:Hm; [|done].
    intros [= <-]. exists EmptyString, EmptyString, cap, rest.
    split_and!; [done..|]. cbn. lia.
  - destruct (matchHere re (String c s) EmptyString) as [[cap rest]|] eqn:Hm.
    + intros [= <-]. exists EmptyString, (String c s), cap, rest.
      split_and!; [done..|]. cbn. lia.
    + intros (pre & s' & cap & rest & -> & Hm' & Hn & Hleft)%IH.
      exists (String c pre), s', cap, rest. split_and!; [done..|].
      intros [|c2 pre2] s2 Hs Hlen.
      * rewrite Str.app_nil_l in Hs. by subst.
      * rewrite !Str.app_cons in Hs. injection Hs as <- Hs.
        eapply Hleft; [done|]. cbn in Hlen. lia.
Qed.

End regexp_facts.

(** ** [extractUID] *)

Import regexp_sem regexp_facts.

Ltac invert_matches :=
  repeat match goal with
         | H : Matches (_ :: _) _ _ _ _ |- _ => inversion H; clear H; subst
         | H : Matches [] _ _ _ _ |- _ => inversion H; clear H; subst
         end.

Lemma cgroup_match_here s cap rest :
  matchHere cgroupRegExp s EmptyString = Some (cap, rest) →
  UidSegment s EmptyString cap rest.
Proof.
  intros Hm%matchHere_sound. unfold cgroupRegExp in Hm. cbn in Hm.
  invert_matches. done.
Qed.

Lemma cgroup_no_match_here s uid rest :
  matchHere cgroupRegExp s EmptyString = None →
  ¬ UidSegment s EmptyString uid rest.
Proof.
  intros Hnone (-> & Hne & Hall).
  eapply matchHere_complete; [|exact Hnone].
  unfold cgroupRegExp. cbn. rewrite Str.app_nil_l.
  do 4 (rewrite Str.app_cons; apply M_lit). rewrite Str.app_nil_l.
  apply M_cap; [done..|]. rewrite Str.app_cons, Str.app_nil_l.
  apply M_lit, M_nil.
Qed.

Lemma UidSegment_shift cgroup pre uid rest :
  UidSegment cgroup EmptyString uid rest →
  UidSegment (pre +:+ cgroup) pre uid rest.
Proof. intros (-> & ? & ?). done. Qed.

Lemma UidSegment_unshift pre uid rest :
  UidSegment (pre +:+ "/pod" +:+ uid +:+ "/" +:+ rest) pre uid rest →
  UidSegment ("/pod" +:+ uid +:+ "/" +:+ rest) EmptyString uid rest.
Proof. intros (_ & ? & ?). done. Qed.

(** C7. [extractUID] looks for a [/pod<uid>/] segment in the cgroup path.
    When it returns without an error, the path has such a segment, the
    result is its [uid], and no segment starts further to the left; when it
    returns an error, the error is the "Unknown cgroup format" one, the
    UID is empty, and the path has no such segment at all. *)
Theorem extractUID_segment (cgroup : string) :
  match extractUID cgroup with
  | (uid, None) =>
      ∃ pre rest, UidSegment cgroup pre uid rest ∧
        ∀ pre' uid' rest', UidSegment cgroup pre' uid' rest' →
          (String.length pre ≤ String.length pre')%nat
  | (uid, Some err) =>
      uid = EmptyString ∧
      err = Errorf ("Unknown cgroup format: " +:+ cgroup) ∧
      ∀ pre' uid' rest', ¬ UidSegment cgroup pre' uid' rest'
  end.
Proof.
  unfold extractUID.
  destruct (FindStringSubmatch cgroupRegExp cgroup) as [l|] eqn:Hf.
  - apply Find_Some in Hf as (pre & s' & cap & rest & -> & Hm & -> & Hleft).
    exists pre, rest. split.
    + by apply UidSegment_shift, cgroup_match_here.
    + intros pre' uid' rest' Hseg.
      destruct (decide (String.length pre' < String.length pre)%nat) as [Hlt|]; [|lia].
      exfalso. pose proof Hseg as (Heq & _ & _).
      specialize (Hleft pre' _ Heq Hlt).
      eapply cgroup_no_match_here; [exact Hleft|].
      rewrite Heq in Hseg. by apply UidSegment_unshift in Hseg.
  - split_and!; [done..|]. intros pre' uid' rest' Hseg.
    pose proof Hseg as (Heq & _ & _).
    pose proof (Find_None _ _ Hf pre' _ Heq) as Hnone.
    eapply cgroup_no_match_here; [exact Hnone|].
    rewrite Heq in Hseg. by apply UidSegment_unshift in Hseg.
Qed.

Example extractUID_burstable :
  extractUID "/kubepods/burstable/podabc-123-def/container0"
  = ("abc-123-def", None).
Proof. reflexivity. Qed.

Example extractUID_no_segment :
  extractUID "/system.slice/docker.service"
  = (EmptyString, Some (Errorf "Unknown cgroup format: /system.slice/docker.service")).
Proof. reflexivity. Qed.

(** ** [strconv.ParseUint] on a string of digits *)

Lemma digit_byte c :
  digit c = true →
  48 ≤ Z.of_N (N_of_ascii c) ≤ 57.
Proof.
  unfold digit. intros [H1 H2]%andb_true_iff.
  apply N.leb_le in H1, H2. lia.
Qed.

Lemma decimal_from_ge n ds :
  0 ≤ n → Str.all digit ds = true → n ≤ decimal_from n ds.
Proof.
  revert n. induction ds as [|c ds IH]; intros n Hn; cbn; [lia|].
  intros [Hc%digit_byte Hds]%andb_true_iff.
  etrans; [|apply IH; [lia|done]]. lia.
Qed.

Lemma parseLoop_digits s0 ds n :
  0 ≤ n ≤ strconv.maxUint64 → Str.all digit ds = true →
  strconv.parseLoop s0 ds n =
  if decimal_from n ds <=? strconv.maxUint64
  then (decimal_from n ds, None)
  else (strconv.maxUint64, Some (strconv.rangeError s0)).
Proof.
  revert n. induction ds as [|c ds IH]; intros n Hn; cbn [strconv.parseLoop decimal_from Str.all].
  - intros _. destruct (Z.leb_spec n strconv.maxUint64); [done|lia].
  - intros [Hc%digit_byte Hds]%andb_true_iff.
    set (b := Z.of_N (N_of_ascii c)) in *. cbv zeta.
    assert (Hmax : strconv.maxUint64 = 18446744073709551615) by reflexivity.
    assert (Hcut : strconv.cutoff = 1844674407370955162) by reflexivity.
    assert (Hpow : 2 ^ 64 = 18446744073709551616) by reflexivity.
    rewrite Hmax, Hcut, Hpow in *.
    destruct (Z.leb_spec 48 b); [|lia]. destruct (Z.leb_spec b 57); [|lia]. cbn [andb].
    pose proof (decimal_from_ge (n * 10 + (b - 48)) ds ltac:(lia) Hds) as Hge.
    destruct (Z.leb_spec 1844674407370955162 n).
    { destruct (Z.leb_spec (decimal_from (n * 10 + (b - 48)) ds) 18446744073709551615); [lia|done]. }
    rewrite (Z.mod_small (n * 10)) by lia.
    destruct (decide (n * 10 + (b - 48) < 18446744073709551616)) as [Hsmall|Hbig].
    + rewrite (Z.mod_small (n * 10 + (b - 48))) by lia.
      destruct (Z.ltb_spec (n * 10 + (b - 48)) (n * 10)); [lia|].
      destruct (Z.ltb_spec 18446744073709551615 (n * 10 + (b - 48))); [lia|]. cbn [orb].
      rewrite IH by (done || lia). done.
    + assert (Hwrap : (n * 10 + (b - 48)) mod 18446744073709551616
                      = n * 10 + (b - 48) - 18446744073709551616).
      { symmetry. apply (Z.mod_unique _ _ 1); lia. }
      rewrite Hwrap.
      destruct (Z.ltb_spec (n * 10 + (b - 48) - 18446744073709551616) (n * 10)); [|lia].
      cbn [orb].
      destruct (Z.leb_spec (decimal_from (n * 10 + (b - 48)) ds) 18446744073709551615); [lia|done].
Qed.

Lemma ParseUint_digits ds :
  ds ≠ EmptyString → Str.all digit ds = true →
  strconv.ParseUint ds =
  if decimal ds <=? strconv.maxUint64
  then (decimal ds, None)
  else (strconv.maxUint64, Some (strconv.rangeError ds)).
Proof.
  intros Hne Hds. destruct ds as [|c ds]; [done|].
  unfold strconv.ParseUint, decimal.
  apply parseLoop_digits; [|done]. by compute.
Qed.

(** ** [extractPID] *)

Lemma pid_match_here s cap rest :
  matchHere pidRegExp s EmptyString = Some (cap, rest) →
  PidMatch s EmptyString cap rest ∧ starts_with digit rest = false.
Proof.
  intros Hm. split.
  - apply matchHere_sound in Hm. unfold pidRegExp in Hm. cbn in Hm.
    invert_matches.
    match goal with
    | H1 : Str.all space ?w1 = true, H2 : Str.all space ?w2 = true |- _ =>
        exists w1, w2
    end.
    split_and!; done.
  - eapply (matchHere_greedy digit
              (lits "Kill" ++ [Plus space] ++ lits "process" ++ [Plus space])).
    exact Hm.
Qed.

Lemma pid_no_match_here s ds rest :
  matchHere pidRegExp s EmptyString = None →
  ¬ PidMatch s EmptyString ds rest.
Proof.
  intros Hnone (ws1 & ws2 & -> & ? & ? & ? & ? & ? & ?).
  eapply matchHere_complete; [|exact Hnone].
  unfold pidRegExp. cbn. rewrite Str.app_nil_l.
  do 4 (rewrite Str.app_cons; apply M_lit). rewrite Str.app_nil_l.
  apply M_plus; [done..|].
  do 7 (rewrite Str.app_cons; apply M_lit). rewrite Str.app_nil_l.
  apply M_plus; [done..|].
  apply M_cap; [done..|]. apply M_nil.
Qed.

Lemma PidMatch_shift message pre ds rest :
  PidMatch message EmptyString ds rest →
  PidMatch (pre +:+ message) pre ds rest.
Proof. intros (ws1 & ws2 & -> & ?). by exists ws1, ws2. Qed.

Lemma PidMatch_unshift pre s ds rest :
  PidMatch (pre +:+ s) pre ds rest → PidMatch s EmptyString ds rest.
Proof.
  intros (ws1 & ws2 & Heq & ?). exists ws1, ws2. split; [|done].
  by apply (inj (String.append pre)) in Heq.
Qed.

Lemma FindPid_Some message l :
  FindStringSubmatch pidRegExp message = Some l →
  ∃ pre rest, LeftmostPidMatch message pre (nth 1 l EmptyString) rest.
Proof.
  intros (pre & s' & cap & rest & -> & Hm & -> & Hleft)%Find_Some.
  apply pid_match_here in Hm as [Hm Hgreedy].
  exists pre, rest. split_and!; [by apply PidMatch_shift|done|].
  intros pre' ds' rest' Hseg.
  destruct (decide (String.length pre' < String.length pre)%nat) as [Hlt|]; [|lia].
  exfalso. pose proof Hseg as (ws1 & ws2 & Heq & _).
  specialize (Hleft pre' _ Heq Hlt).
  eapply pid_no_match_here; [exact Hleft|].
  rewrite Heq in Hseg. by apply PidMatch_unshift in Hseg.
Qed.

Lemma FindPid_None message :
  FindStringSubmatch pidRegExp message = None →
  ∀ pre ds rest, ¬ PidMatch message pre ds rest.
Proof.
  intros Hf pre ds rest Hseg. pose proof Hseg as (ws1 & ws2 & Heq & _).
  pose proof (Find_None _ _ Hf pre _ Heq) as Hnone.
  eapply pid_no_match_here; [exact Hnone|].
  rewrite Heq in Hseg. by apply PidMatch_unshift in Hseg.
Qed.

(** C6, as amended. [extractPID] applies the pattern
    [Kill\s+process\s+(\d+)]: the two gaps are runs of one or more
    white-space bytes, not single spaces.  When it returns without an error
    the message has a match, and the result is the number that the digits of
    the leftmost match denote, all digits taken, which is below [2^64].
    When it returns an error the PID is 0, and either the message has no
    match and the error is the "does not match" one, or the digits of the
    leftmost match denote a number above the largest [uint64] and the error
    is the range error of [strconv]. *)
Theorem extractPID_pattern (message : string) :
  match extractPID message with
  | (pid, None) =>
      ∃ pre ds rest, LeftmostPidMatch message pre ds rest ∧
        pid = decimal ds ∧ decimal ds ≤ strconv.maxUint64
  | (pid, Some err) =>
      pid = 0 ∧
      ((err = Errorf ("Event message does not match: " +:+ message) ∧
        ∀ pre ds rest, ¬ PidMatch message pre ds rest) ∨
       (∃ pre ds rest, LeftmostPidMatch message pre ds rest ∧
          strconv.maxUint64 < decimal ds ∧ err = strconv.rangeError ds))
  end.
Proof.
  unfold extractPID.
  destruct (FindStringSubmatch pidRegExp message) as [l|] eqn:Hf.
  - apply FindPid_Some in Hf as (pre & rest & Hm).
    pose proof Hm as ((ws1 & ws2 & _ & _ & _ & _ & _ & Hne & Hds) & _ & _).
    rewrite (ParseUint_digits _ Hne Hds).
    destruct (Z.leb_spec (decimal (nth 1 l EmptyString)) strconv.maxUint64).
    + exists pre, (nth 1 l EmptyString), rest. done.
    + split; [done|]. right. exists pre, (nth 1 l EmptyString), rest. done.
  - split; [done|]. left. split; [done|]. by apply FindPid_None.
Qed.

Example extractPID_4821 : extractPID "Kill process 4821" = (4821, None).
Proof. reflexivity. Qed.

Example extractPID_out_of_memory :
  extractPID "out of memory"
  = (0, Some (Errorf "Event message does not match: out of memory")).
Proof. reflexivity. Qed.

Example extractPID_out_of_range :
  extractPID "Kill process 18446744073709551616"
  = (0, Some (NumError "ParseUint" "18446744073709551616" ErrRange)).
Proof. reflexivity. Qed.

(** C6, the counterexample.  With two spaces after [Kill] the pattern of
    the specification, [Kill process (\d+)], does not match, so the
    extraction the specification describes fails; [extractPID] returns the
    PID. *)
Lemma extractPID_two_spaces :
  spec_extractPID "Kill  process 7"
  = (0, Some (Errorf "Event message does not match: Kill  process 7")) ∧
  extractPID "Kill  process 7" = (7, None).
Proof. split; reflexivity. Qed.

(** ** The signals of the event watcher *)

(** What the watcher sends for one event that passes the filters: the
    success signal alone when the extraction succeeds, and otherwise the
    failure signal followed by a success signal with PID 0. *)
Lemma oomKilling_signals node message rv0 rv :
  eventEvents [oomKilling node message rv] rv0 =
  (match extractPID message with
   | (pid, None) => [Send {| Node := node; PID := pid; Error := None |}]
   | (pid, Some e) =>
       [Send {| Node := EmptyString; PID := 0; Error := Some e |};
        Send {| Node := node; PID := pid; Error := None |}]
   end, (rv, None)).
Proof.
  cbn. destruct (extractPID message) as [pid [e|]]; cbn; by rewrite ?app_nil_r.
Qed.

(** C1, at the failing input.  For the added [OOMKilling] event of node
    [node-3] with the message [out of memory] the watcher sends two signals
    on the queue: the failure signal with the extraction error, and then a
    success signal for [node-3] with PID 0. *)
Theorem eventWatcher_sends_both_signals :
  eventEvents [oomKilling "node-3" "out of memory" "42"] "41" =
  ([Send {| Node := EmptyString; PID := 0;
            Error := Some (Errorf "Event message does not match: out of memory") |};
    Send {| Node := "node-3"; PID := 0; Error := None |}],
   ("42", None)).
Proof. reflexivity. Qed.

(** ** The query of [handleOOM] *)

Module sql_facts.

Import sql.

Definition newer (a b : Row) : Prop := ts b ≤ ts a.

Lemma elem_of_insertDesc r x l : x ∈ insertDesc r l ↔ x = r ∨ x ∈ l.
Proof.
  induction l as [|y l IH]; cbn.
  - rewrite list_elem_of_singleton, elem_of_nil. tauto.
  - destruct (ts y <? ts r).
    + by rewrite elem_of_cons.
    + rewrite !elem_of_cons, IH. tauto.
Qed.

Lemma insertDesc_sorted r l :
  StronglySorted newer l → StronglySorted newer (insertDesc r l).
Proof.
  induction 1 as [|y l Hs IH Hy]; cbn.
  - repeat constructor.
  - destruct (Z.ltb_spec (ts y) (ts r)).
    + constructor; [by constructor|]. constructor; [unfold newer; lia|].
      eapply Forall_impl; [exact Hy|]. unfold newer. intros; lia.
    + constructor; [done|]. apply Forall_forall.
      intros x [->|Hx]%elem_of_insertDesc; [done|].
      by eapply Forall_forall in Hy.
Qed.

Lemma orderByTsDesc_sorted l : StronglySorted newer (orderByTsDesc l).
Proof.
  induction l as [|r l IH]; cbn; [constructor|]. by apply insertDesc_sorted.
Qed.

Lemma elem_of_orderByTsDesc x l : x ∈ orderByTsDesc l ↔ x ∈ l.
Proof.
  induction l as [|r l IH]; cbn; [done|].
  by rewrite elem_of_insertDesc, IH, elem_of_cons.
Qed.

Lemma where_Candidate node processId now r :
  where_ node processId now r = true ↔ Candidate node processId now r.
Proof.
  unfold where_, Candidate.
  rewrite !andb_true_iff, String.eqb_eq, Z.eqb_eq, Z.ltb_lt. tauto.
Qed.

End sql_facts.

(** C2, as amended.  The query of [handleOOM] returns at most one row.
    The row it returns is a row of the table for the given host and process
    id with a timestamp strictly before the time of the query, and no such
    row is newer; it returns no row exactly when the table has no such
    row.  A row stamped with the time of the query itself, or later, is
    never returned. *)
Theorem selectRows_most_recent (records : list sql.Row) (now : Z)
    (node : string) (processId : Z) :
  match sql.selectRows records now node processId with
  | [] => ∀ r, r ∈ records → ¬ Candidate node processId now r
  | [r] =>
      r ∈ records ∧ Candidate node processId now r ∧
      ∀ r', r' ∈ records → Candidate node processId now r' → sql.ts r' ≤ sql.ts r
  | _ => False
  end.
Proof.
  unfold sql.selectRows.
  set (sel := filter _ records).
  assert (Hsel : ∀ r, r ∈ sel ↔ Candidate node processId now r ∧ r ∈ records).
  { intros r. unfold sel. rewrite list_elem_of_filter, sql_facts.where_Candidate. done. }
  pose proof (sql_facts.orderByTsDesc_sorted sel) as Hsorted.
  pose proof (λ x, sql_facts.elem_of_orderByTsDesc x sel) as Hperm.
  destruct (sql.orderByTsDesc sel) as [|r l]; cbn.
  - intros r Hr Hc. apply (elem_of_nil r), Hperm, Hsel. done.
  - assert (Hr : r ∈ sel) by (apply Hperm; left).
    apply Hsel in Hr as [Hc Hr]. split_and!; [done..|].
    intros r' Hr' Hc'. assert (Hin : r' ∈ r :: l) by (apply Hperm, Hsel; done).
    apply elem_of_cons in Hin as [->|Hin]; [lia|].
    apply StronglySorted_inv in Hsorted as [_ Hall].
    by eapply Forall_forall in Hall.
Qed.

(** C2, the counterexample.  At the query time 100, with records of the
    process at the times 90 and 100, the lookup of the specification
    (timestamp at or before the query time) selects the record at 100; the
    query of [handleOOM] selects the record at 90. *)
Lemma selectRows_excludes_query_time :
  spec_selectRows [record_at_90; record_at_100] 100 "node-3" 500 = [record_at_100] ∧
  sql.selectRows [record_at_90; record_at_100] 100 "node-3" 500 = [record_at_90].
Proof. split; reflexivity. Qed.

(** ** The index kept by the pod indexer *)

Lemma alter_as_insert {A} (f : A → A) (l : list A) i x :
  l !! i = Some x → alter f i l = <[i := f x]> l.
Proof.
  revert i. induction l as [|y l IH]; intros [|i] Hx; try done.
  - by injection Hx as ->.
  - cbn in *. f_equal. by apply IH.
Qed.

Lemma loadItems_fold index items g m :
  heap g !! index = Some m →
  (loadItems index items g).2 =
  {| heap := <[index := foldl applyNotification m (Add <$> items)]> (heap g);
     uidIndex := uidIndex g |}.
Proof.
  revert g m. induction items as [|pod items IH]; intros g m Hm; cbn.
  - rewrite list_insert_id by done. by destruct g.
  - specialize (IH (mapAssign index (v1.Pod_UID pod) (podInfo pod) g)
                  (<[v1.Pod_UID pod := podInfo pod]> m)).
    destruct (loadItems index items _) as [acts g']. cbn in *.
    rewrite IH.
    + f_equal. unfold mapAssign; cbn.
      by rewrite (alter_as_insert _ _ _ m), list_insert_insert_eq.
    + cbn. by rewrite list_lookup_alter_eq, Hm.
Qed.

Lemma podEvents_notify index ns rv g m :
  heap g !! index = Some m →
  ∃ acts rv',
    podEvents index (notify <$> ns) rv g =
    (acts,
     ({| heap := <[index := foldl applyNotification m ns]> (heap g);
         uidIndex := uidIndex g |}, rv', None)).
Proof.
  revert rv g m. induction ns as [|n ns IH]; intros rv g m Hm.
  - exists [], rv. cbn. rewrite list_insert_id by done. by destruct g.
  - destruct n as [pod|pod|pod]; cbn.
    + destruct (IH (v1.Pod_ResourceVersion pod)
                  (mapAssign index (v1.Pod_UID pod) (podInfo pod) g)
                  (<[v1.Pod_UID pod := podInfo pod]> m)) as (acts & rv' & ->).
      { cbn. by rewrite list_lookup_alter_eq, Hm. }
      eexists _, rv'. cbn.
      by rewrite (alter_as_insert _ _ _ m), list_insert_insert_eq.
    + destruct (IH (v1.Pod_ResourceVersion pod)
                  (mapDelete index (v1.Pod_UID pod) g)
                  (delete (v1.Pod_UID pod) m)) as (acts & rv' & ->).
      { cbn. by rewrite list_lookup_alter_eq, Hm. }
      eexists _, rv'. cbn.
      by rewrite (alter_as_insert _ _ _ m), list_insert_insert_eq.
    + apply IH. done.
Qed.

Lemma podWatches_sessions index ss rv g m :
  heap g !! index = Some m →
  ∃ acts,
    podWatches index (session <$> ss) rv g =
    (acts,
     ({| heap := <[index := foldl applyNotification m (concat (snd <$> ss))]> (heap g);
         uidIndex := uidIndex g |}, [], None)).
Proof.
  revert rv g m. induction ss as [|[r ns] ss IH]; intros rv g m Hm.
  - exists []. cbn. rewrite list_insert_id by done. by destruct g.
  - cbn. destruct (podEvents_notify index ns rv g m Hm) as (acts & rv' & ->).
    edestruct (IH rv') as (acts' & ->).
    { cbn. apply list_lookup_insert_eq. by eapply lookup_lt_Some. }
    eexists. cbn. by rewrite list_insert_insert_eq, foldl_app.
Qed.

Lemma touches_dec uid n : Decision (touches uid n).
Proof. destruct n; cbn; apply _. Defined.

Lemma LastAdded_snoc_touch uid pod ns n :
  touches uid n →
  LastAdded uid pod (ns ++ [n]) ↔ n = Add pod.
Proof.
  intros Ht. split.
  - intros (pre & post & Heq & Hu & Hpost).
    destruct post as [|x post _] using rev_ind.
    + by apply app_inj_tail in Heq as [_ ->].
    + rewrite app_comm_cons, app_assoc in Heq.
      apply app_inj_tail in Heq as [_ ->].
      apply Forall_app in Hpost as [_ Hx]. by inversion Hx.
  - intros ->. exists ns, []. by split_and!.
Qed.

Lemma LastAdded_snoc_other uid pod ns n :
  ¬ touches uid n →
  LastAdded uid pod (ns ++ [n]) ↔ LastAdded uid pod ns.
Proof.
  intros Ht. split.
  - intros (pre & post & Heq & Hu & Hpost).
    destruct post as [|x post _] using rev_ind.
    + apply app_inj_tail in Heq as [_ ->]. by destruct Ht.
    + rewrite app_comm_cons, app_assoc in Heq.
      apply app_inj_tail in Heq as [-> ->].
      apply Forall_app in Hpost as [Hpost _]. by exists pre, post.
  - intros (pre & post & -> & Hu & Hpost).
    exists pre, (post ++ [n]). split_and!; [by rewrite <-app_assoc|done|].
    apply Forall_app. split; [done|]. by constructor.
Qed.

(** The map that a sequence of notifications builds from the empty map
    holds, for each UID, the record of the last addition that no later
    addition or removal of the same UID follows. *)
Lemma fold_LastAdded ns uid info :
  foldl applyNotification ∅ ns !! uid = Some info ↔
  ∃ pod, LastAdded uid pod ns ∧ podInfo pod = info.
Proof.
  revert info. induction ns as [|n ns IH] using rev_ind; intros info.
  - cbn. rewrite lookup_empty. split; [done|].
    intros (pod & (pre & post & Heq & _) & _). by destruct pre.
  - rewrite foldl_app. cbn [foldl].
    destruct (touches_dec uid n) as [Ht|Ht].
    + setoid_rewrite (LastAdded_snoc_touch uid _ ns n Ht).
      destruct n as [pod|pod|pod]; cbn in *; subst; [| |done].
      * rewrite lookup_insert_eq. split.
        -- intros [= <-]. by exists pod.
        -- by intros (pod' & [= <-] & <-).
      * rewrite lookup_delete_eq. split; [done|]. by intros (pod' & [=] & _).
    + setoid_rewrite (LastAdded_snoc_other uid _ ns n Ht). rewrite <-IH.
      destruct n as [pod|pod|pod]; cbn in *; [| |done].
      * by rewrite lookup_insert_ne.
      * by rewrite lookup_delete_ne.
Qed.

Lemma internalPodIndexer_sessions (l : ListOf v1.Pod)
    (ss : list (float64.t * list Notification)) (g : Globals) :
  ∃ acts g',
    internalPodIndexer (Ok l) (session <$> ss) g = (acts, (g', [], Running)) ∧
    uidIndex g' = Some (length (heap g)) ∧
    heap g' !! length (heap g) = Some (foldl applyNotification ∅ (seen l ss)).
Proof.
  unfold internalPodIndexer. cbn [makeMap].
  set (g1 := {| heap := heap g ++ [∅]; uidIndex := uidIndex g |}).
  assert (H1 : heap g1 !! length (heap g) = Some ∅).
  { cbn. by rewrite lookup_app_r, Nat.sub_diag. }
  pose proof (loadItems_fold (length (heap g)) (Items l) g1 ∅ H1) as Hload.
  destruct (loadItems (length (heap g)) (Items l) g1) as [acts g2].
  cbn in Hload. subst g2.
  set (m := foldl applyNotification ∅ (Add <$> Items l)).
  set (g3 := publish _ _).
  assert (H3 : heap g3 !! length (heap g) = Some m).
  { cbn. apply list_lookup_insert_eq. rewrite length_app. cbn. lia. }
  destruct (podWatches_sessions (length (heap g)) ss (ResourceVersion l) g3 m H3)
    as (acts' & ->).
  eexists _, _. split_and!; [done..|].
  cbn. unfold seen. rewrite foldl_app. fold m.
  apply list_lookup_insert_eq. rewrite length_insert, length_app. cbn. lia.
Qed.

(** C3, as amended.  A call of [internalPodIndexer] that gets a snapshot
    and then, over any number of watches, any sequence of add, remove and
    modify notifications keeps running, and the map it has published holds
    what the notifications leave when they are applied in order to the
    empty map, the items of the snapshot first, as additions: an addition
    sets the record of its UID, a removal deletes the UID, a modification
    changes nothing.  So a UID is in the index exactly when the last
    notification that adds or removes it is an addition, and its record is
    the one of that addition. *)
Theorem podIndex_last_write (l : ListOf v1.Pod)
    (ss : list (float64.t * list Notification)) (g : Globals) :
  ∃ acts g' index,
    internalPodIndexer (Ok l) (session <$> ss) g = (acts, (g', [], Running)) ∧
    uidIndex g' = Some (length (heap g)) ∧
    heap g' !! length (heap g) = Some index ∧
    index = foldl applyNotification ∅ (seen l ss) ∧
    ∀ uid info,
      index !! uid = Some info ↔
      ∃ pod, LastAdded uid pod (seen l ss) ∧ podInfo pod = info.
Proof.
  destruct (internalPodIndexer_sessions l ss g) as (acts & g' & Hrun & Hp & Hm).
  exists acts, g', (foldl applyNotification ∅ (seen l ss)).
  split_and!; [done..|]. intros uid info. apply fold_LastAdded.
Qed.

(** C3, the counterexample.  The pod [u1] is added, removed and added
    again.  The set of added UIDs minus the set of removed UIDs is empty;
    the index that [internalPodIndexer] has published holds [u1]. *)
Lemma podIndex_readded :
  addedUIDs [Add pod_u1; Remove pod_u1; Add pod_u1]
    ∖ removedUIDs [Add pod_u1; Remove pod_u1; Add pod_u1] = ∅ ∧
  ∃ acts g',
    internalPodIndexer (Ok {| Items := []; ResourceVersion := "1" |})
      [session (S754_zero false, [Add pod_u1; Remove pod_u1; Add pod_u1])]
      initial
    = (acts, (g', [], Running)) ∧
    uidIndex g' = Some 0%nat ∧
    heap g' !! 0%nat = Some {[ "u1" := podInfo pod_u1 ]}.
Proof.
  split.
  - unfold addedUIDs, removedUIDs. cbn. set_solver.
  - eexists _, _. split; [reflexivity|]. split; reflexivity.
Qed.

(** ** Restart and fatal errors of the two watchers *)

Lemma podEvents_shape index evs rv g :
  (podEvents index evs rv g).2.2 = firstError evs ∧
  length (heap (podEvents index evs rv g).2.1.1) = length (heap g) ∧
  uidIndex (podEvents index evs rv g).2.1.1 = uidIndex g.
Proof.
  revert rv g. induction evs as [|ev evs IH]; intros rv g; cbn; [done|].
  destruct (decide (watch.Type_ ev = watch.Error)); [done|].
  destruct (watch.Object_ ev) as [pod| | |]; try apply IH.
  destruct (decide (watch.Type_ ev = watch.Added)).
  { specialize (IH (v1.Pod_ResourceVersion pod)
                  (mapAssign index (v1.Pod_UID pod) (podInfo pod) g)).
    destruct (podEvents _ _ _ _) as [acts [[g' rv'] r]]. cbn in *.
    by rewrite length_alter in IH. }
  destruct (decide (watch.Type_ ev = watch.Deleted)); [|apply IH].
  specialize (IH (v1.Pod_ResourceVersion pod)
                (mapDelete index (v1.Pod_UID pod) g)).
  destruct (podEvents _ _ _ _) as [acts [[g' rv'] r]]. cbn in *.
  by rewrite length_alter in IH.
Qed.

Lemma podWatches_error index ws w watches rv g err :
  Forall (λ w, watchError w = None) ws → watchError w = Some err →
  ∃ acts g',
    podWatches index (ws ++ w :: watches) rv g = (acts, (g', watches, Some err)) ∧
    length (heap g') = length (heap g) ∧ uidIndex g' = uidIndex g.
Proof.
  intros Hws Hw. revert rv g.
  induction Hws as [|w0 ws Hw0 _ IH]; intros rv g; cbn.
  - unfold watchError in Hw. destruct (events w) as [evs|e].
    + pose proof (podEvents_shape index evs rv g) as (Hr & Hl & Hp).
      destruct (podEvents index evs rv g) as [acts [[g' rv'] r]]. cbn in *.
      rewrite Hr, Hw. by eexists _, _.
    + injection Hw as ->. by eexists _, _.
  - unfold watchError in Hw0. destruct (events w0) as [evs|e]; [|done].
    pose proof (podEvents_shape index evs rv g) as (Hr & Hl & Hp).
    destruct (podEvents index evs rv g) as [acts [[g' rv'] r]]. cbn in *.
    rewrite Hr, Hw0. destruct (IH rv' g') as (acts' & g'' & -> & Hl' & Hp').
    eexists _, _. split; [done|]. split; congruence.
Qed.

Lemma eventEvents_error evs rv :
  (eventEvents evs rv).2.2 = firstError evs.
Proof.
  revert rv. induction evs as [|ev evs IH]; intros rv; cbn; [done|].
  destruct (decide (watch.Type_ ev = watch.Error)); [done|].
  destruct (watch.Object_ ev) as [|event| |]; try apply IH.
  specialize (IH (v1.Event_ResourceVersion event)).
  by destruct (eventEvents evs _) as [acts [rv' r]].
Qed.

Lemma eventWatches_error ws w watches rv err :
  Forall (λ w, watchError w = None) ws → watchError w = Some err →
  ∃ acts, eventWatches (ws ++ w :: watches) rv = (acts, (watches, Some err)).
Proof.
  intros Hws Hw. revert rv.
  induction Hws as [|w0 ws Hw0 _ IH]; intros rv; cbn.
  - unfold watchError in Hw. destruct (events w) as [evs|e].
    + pose proof (eventEvents_error evs rv) as Hr.
      destruct (eventEvents evs rv) as [acts [rv' r]]. cbn in *.
      rewrite Hr, Hw. by eexists.
    + injection Hw as ->. by eexists.
  - unfold watchError in Hw0. destruct (events w0) as [evs|e]; [|done].
    pose proof (eventEvents_error evs rv) as Hr.
    destruct (eventEvents evs rv) as [acts [rv' r]]. cbn in *.
    rewrite Hr, Hw0. destruct (IH rv') as (acts' & ->). by eexists.
Qed.

Lemma internalPodIndexer_error l ws w watches g err :
  Forall (λ w, watchError w = None) ws → watchError w = Some err →
  ∃ acts g',
    internalPodIndexer (Ok l) (ws ++ w :: watches) g
    = (acts, (g', watches, Returned err)) ∧
    length (heap g') = S (length (heap g)) ∧
    uidIndex g' = Some (length (heap g)).
Proof.
  intros Hws Hw. unfold internalPodIndexer. cbn [makeMap].
  set (g1 := {| heap := heap g ++ [∅]; uidIndex := uidIndex g |}).
  assert (H1 : heap g1 !! length (heap g) = Some ∅).
  { cbn. by rewrite lookup_app_r, Nat.sub_diag. }
  pose proof (loadItems_fold (length (heap g)) (Items l) g1 ∅ H1) as Hload.
  destruct (loadItems (length (heap g)) (Items l) g1) as [acts g2].
  cbn in Hload. subst g2.
  set (g3 := publish _ _).
  destruct (podWatches_error (length (heap g)) ws w watches (ResourceVersion l)
              g3 err Hws Hw) as (acts' & g' & -> & Hl & Hp).
  eexists _, _. split_and!; [done| |done].
  rewrite Hl. cbn. rewrite length_insert, length_app. cbn. lia.
Qed.

(** C4.  Let a watch iteration end with the error [err], after any number
    of iterations that ended without one.  In both watchers: if [err] is
    the resource-version-expired status error, the watcher goes on exactly
    as a watcher that is started afresh on the rest of the script: it
    fetches a new snapshot and carries nothing over (the pod indexer keeps
    the shared memory, where [uidIndex] still points to the old map).
    Once the pod indexer has loaded the new snapshot, the index it
    publishes is built from that snapshot and the notifications after it
    alone.  If [err] is any other error, the watcher ends the process with
    [err]. *)
Theorem watchers_restart_or_exit (ws : list WatchAnswer) (w : WatchAnswer)
    (err : error) :
  Forall (λ w, watchError w = None) ws →
  watchError w = Some err →
  (∀ l lists watches g,
     ∃ acts g1,
       uidIndex g1 = Some (length (heap g)) ∧
       podIndexer (Ok l :: lists) (ws ++ w :: watches) g =
       if isExpired err
       then (acts ++ (podIndexer lists watches g1).1,
             (podIndexer lists watches g1).2)
       else (acts, (g1, Fatal err))) ∧
  (∀ l l' ss g,
     isExpired err = true →
     ∃ acts g',
       podIndexer [Ok l; Ok l'] (ws ++ w :: (session <$> ss)) g
       = (acts, (g', Waiting)) ∧
       uidIndex g' = Some (S (length (heap g))) ∧
       heap g' !! S (length (heap g))
       = Some (foldl applyNotification ∅ (seen l' ss))) ∧
  (∀ l lists watches,
     ∃ acts,
       eventWatcher (Ok l :: lists) (ws ++ w :: watches) =
       if isExpired err
       then (acts ++ (eventWatcher lists watches).1,
             (eventWatcher lists watches).2)
       else (acts, Fatal err)).
Proof.
  intros Hws Hw. split_and!.
  - intros l lists watches g.
    destruct (internalPodIndexer_error l ws w watches g err Hws Hw)
      as (acts & g1 & Hrun & _ & Hp).
    exists acts, g1. split; [done|].
    cbn [podIndexer]. rewrite Hrun.
    destruct (isExpired err); [|done].
    by destruct (podIndexer lists watches g1) as [acts' e].
  - intros l l' ss g Hexp.
    destruct (internalPodIndexer_error l ws w (session <$> ss) g err Hws Hw)
      as (acts & g1 & Hrun & Hl & _).
    destruct (internalPodIndexer_sessions l' ss g1) as (acts' & g' & Hrun' & Hp' & Hm').
    exists (acts ++ acts'), g'.
    cbn [podIndexer]. rewrite Hrun, Hexp, Hrun'.
    rewrite Hl in Hp', Hm'. done.
  - intros l lists watches. cbn [eventWatcher internalEventWatcher].
    destruct (eventWatches_error ws w watches (ResourceVersion l) err Hws Hw)
      as (acts & ->).
    exists (CallList :: acts).
    destruct (isExpired err); [|done].
    by destruct (eventWatcher lists watches) as [acts' e].
Qed.

Lemma watchers_restart_or_exit_witness :
  Forall (λ w, watchError w = None) [] ∧
  watchError expiredWatch = Some (StatusError StatusReasonExpired "too old resource version") ∧
  ∃ acts,
    eventWatcher [Ok {| Items := []; ResourceVersion := "1" |}] ([] ++ expiredWatch :: [])
    = (acts ++ (eventWatcher [] []).1, (eventWatcher [] []).2).
Proof.
  split; [constructor|]. split; [reflexivity|].
  destruct (watchers_restart_or_exit [] expiredWatch
              (StatusError StatusReasonExpired "too old resource version")
              (Forall_nil_2 _) eq_refl) as (_ & _ & H).
  exact (H {| Items := []; ResourceVersion := "1" |} [] []).
Defined.

(** ** The notifier *)

(** C8.  A call of [postMessage] makes no request when [json.Marshal]
    fails and otherwise exactly one: a POST of the serialized payload to
    the webhook URL with the JSON content type.  It returns [nil] exactly
    when the payload was serialized and the webhook answered that request
    with a status from 200 to 299; a transport error is returned as it is,
    and a status outside the range gives the "Failed to POST" error.
    Nothing is retried or queued: the requests made before the call are
    unchanged and at most one is added. *)
Theorem postMessage_single_attempt
    (Marshal : gmap string string → string * option error)
    (webhookURL : string) (respond : nat → http.Answer)
    (data : gmap string string) (posted : list http.Request) :
  let request :=
    {| http.url := webhookURL;
       http.contentType := "application/json";
       http.body := (Marshal data).1 |} in
  let out := postMessage Marshal webhookURL respond data posted in
  match (Marshal data).2 with
  | Some e => out = (posted, Some e)
  | None =>
      out.1 = posted ++ [request] ∧
      match respond (length posted) with
      | http.Failed e => out.2 = Some e
      | http.Response StatusCode Status =>
          (200 ≤ StatusCode ≤ 299 → out.2 = None) ∧
          (¬ 200 ≤ StatusCode ≤ 299 →
           out.2 = Some (Errorf ("Failed to POST: " +:+ Status)))
      end
  end ∧
  (out.2 = None ↔
   (Marshal data).2 = None ∧
   ∃ StatusCode Status,
     respond (length posted) = http.Response StatusCode Status ∧
     200 ≤ StatusCode ≤ 299) ∧
  (length out.1 ≤ S (length posted))%nat.
Proof.
  cbv zeta. unfold postMessage.
  destruct (Marshal data) as [jsonValue [e|]]; cbn.
  { split; [done|]. split; [|lia]. split; [done|]. by intros [? _]. }
  destruct (respond (length posted)) as [e|StatusCode Status]; cbn.
  { split; [done|]. split; [|rewrite length_app; cbn; lia].
    split; [done|]. by intros (_ & ? & ? & ? & _). }
  destruct (Z.ltb_spec StatusCode 200); cbn.
  { split; [split; [done|]; split; [lia|done]|].
    split; [|rewrite length_app; cbn; lia].
    split; [done|]. intros (_ & ? & ? & [= <- <-] & ?). lia. }
  destruct (Z.ltb_spec 299 StatusCode); cbn.
  { split; [split; [done|]; split; [lia|done]|].
    split; [|rewrite length_app; cbn; lia].
    split; [done|]. intros (_ & ? & ? & [= <- <-] & ?). lia. }
  split; [split; [done|]; split; [done|lia]|].
  split; [|rewrite length_app; cbn; lia].
  split; [|done]. intros _. split; [done|].
  exists StatusCode, Status. split; [done|lia].
Qed.

(** ** The consumer loop *)

Section consumer_facts.

Variable Marshal : gmap string string → string * option error.
Variable webhookURL : string.
Variable respond : nat → http.Answer.

Lemma handleOOM_Unresolved event g db err posted :
  Unresolved event g db err →
  handleOOM Marshal webhookURL respond event g db posted
  = (posted, Done (Some err)).
Proof.
  unfold handleOOM.
  destruct 1 as [records now Hsel|records now r rest uid err Hsel Huid
                |records now r rest uid p index Hsel Huid Hp Hindex Hlook];
    cbn; rewrite Hsel; cbn; [done|..]; rewrite Huid; [done|].
  by rewrite Hp, Hindex, Hlook.
Qed.

Lemma handleOOM_Resolved event g db pod nspid posted :
  Resolved event g db pod nspid →
  handleOOM Marshal webhookURL respond event g db posted =
  ((postMessage Marshal webhookURL respond (podAlert pod event nspid) posted).1,
   Done (postMessage Marshal webhookURL respond (podAlert pod event nspid) posted).2).
Proof.
  intros (records & now & r & rest & uid & p & index
          & -> & Hsel & Huid & Hp & Hindex & Hlook & <-).
  unfold handleOOM. cbn. rewrite Hsel. cbn. rewrite Huid, Hp, Hindex, Hlook.
  fold (podAlert pod event (sql.nspid r)).
  by destruct (postMessage _ _ _ _ _).
Qed.


End consumer_facts.



(** ** The nil index *)

Lemma stores_app acts acts' : stores (acts ++ acts') = stores acts ++ stores acts'.
Proof. apply omap_app. Qed.

Lemma same_shape_refl g : same_shape g g.
Proof. done. Qed.

Lemma same_shape_trans g1 g2 g3 :
  same_shape g1 g2 → same_shape g2 g3 → same_shape g1 g3.
Proof. intros [??] [??]. split; congruence. Qed.

Lemma same_shape_mapAssign index uid info g :
  same_shape g (mapAssign index uid info g).
Proof. split; cbn; [apply length_alter|done]. Qed.

Lemma same_shape_mapDelete index uid g : same_shape g (mapDelete index uid g).
Proof. split; cbn; [apply length_alter|done]. Qed.



Lemma podEvents_stores index evs rv g :
  Forall (same_shape g) (stores (podEvents index evs rv g).1) ∧
  same_shape g (podEvents index evs rv g).2.1.1.
Proof.
  revert rv g. induction evs as [|ev evs IH]; intros rv g; cbn.
  { split; [constructor|done]. }
  destruct (decide (watch.Type_ ev = watch.Error)).
  { split; [constructor|done]. }
  destruct (watch.Object_ ev) as [pod| | |]; try apply IH.
  destruct (decide (watch.Type_ ev = watch.Added)).
  { specialize (IH (v1.Pod_ResourceVersion pod)
                  (mapAssign index (v1.Pod_UID pod) (podInfo pod) g)).
    destruct (podEvents _ _ _ _) as [acts [[g' rv'] r]]. cbn in *.
    destruct IH as [Hall Hfin].
    pose proof (same_shape_mapAssign index (v1.Pod_UID pod) (podInfo pod) g) as Hs.
    split; [|by eapply same_shape_trans].
    constructor; [done|].
    eapply Forall_impl; [exact Hall|]. intros g''. by apply same_shape_trans. }
  destruct (decide (watch.Type_ ev = watch.Deleted)); [|apply IH].
  specialize (IH (v1.Pod_ResourceVersion pod) (mapDelete index (v1.Pod_UID pod) g)).
  destruct (podEvents _ _ _ _) as [acts [[g' rv'] r]]. cbn in *.
  destruct IH as [Hall Hfin].
  pose proof (same_shape_mapDelete index (v1.Pod_UID pod) g) as Hs.
  split; [|by eapply same_shape_trans].
  constructor; [done|].
  eapply Forall_impl; [exact Hall|]. intros g''. by apply same_shape_trans.
Qed.

Lemma podWatches_stores index watches rv g :
  Forall (same_shape g) (stores (podWatches index watches rv g).1) ∧
  same_shape g (podWatches index watches rv g).2.1.1.
Proof.
  revert rv g. induction watches as [|w watches IH]; intros rv g; cbn.
  { split; [constructor|done]. }
  destruct (events w) as [evs|e]; cbn; [|split; [constructor|done]].
  pose proof (podEvents_stores index evs rv g) as [Hall Hfin].
  destruct (podEvents index evs rv g) as [acts [[g' rv'] r]]. cbn in *.
  destruct r as [err|]; cbn; [done|].
  specialize (IH rv' g').
  destruct (podWatches index watches rv' g') as [acts' [[g'' ws] r']]. cbn in *.
  destruct IH as [Hall' Hfin'].
  split; [|by eapply same_shape_trans].
  rewrite stores_app. apply Forall_app. split; [done|].
  eapply Forall_impl; [exact Hall'|]. intros g3. by apply same_shape_trans.
Qed.




Lemma handleOOM_allocated Marshal webhookURL respond event g db posted msg :
  allocated g →
  (handleOOM Marshal webhookURL respond event g db posted).2 ≠ Panic msg.
Proof.
  intros Hg. unfold handleOOM.
  destruct (sql.QueryRow db (Node event) (PID event)) as [[cgroup nspid] err].
  destruct (decide (err = Some ErrNoRows)); [done|].
  destruct err; [done|].
  destruct (extractUID cgroup) as [uid [e|]]; [done|].
  destruct (uidIndex g) as [p|] eqn:Hp; [|done].
  destruct (heap g !! p) as [index|] eqn:Hindex.
  - destruct (index !! uid); [|done]. by destruct (postMessage _ _ _ _ _).
  - apply lookup_ge_None in Hindex. specialize (Hg p Hp). lia.
Qed.


(** ** The watch timeout

    Facts about the rounding of the specification of floating-point
    arithmetic, at precision 53. *)

Module float_facts.

Lemma digits2_size p : digits2_pos p = Pos.size p.
Proof. induction p; cbn; congruence. Qed.

Lemma digits2_bounds p :
  2 ^ (Zpos (digits2_pos p) - 1) ≤ Zpos p < 2 ^ Zpos (digits2_pos p).
Proof.
  rewrite digits2_size. split.
  - pose proof (Pos.size_le p) as Hp.
    apply Pos2Z.pos_le_pos in Hp. rewrite Pos2Z.inj_pow in Hp.
    replace (Zpos (Pos.size p)) with (Z.succ (Zpos (Pos.size p) - 1)) in Hp by lia.
    rewrite Z.pow_succ_r in Hp by lia. lia.
  - pose proof (Pos.size_gt p) as H.
    apply Pos2Z.pos_lt_pos in H. by rewrite Pos2Z.inj_pow in H.
Qed.

(** [n] applications of [shr_1] divide by [2^n]. *)
Lemma iter_pos_nat {A} (f : A → A) p x :
  SpecFloat.iter_pos f p x = Nat.iter (Pos.to_nat p) f x.
Proof.
  revert x. induction p as [p IH|p IH|]; intros x; cbn [SpecFloat.iter_pos].
  - rewrite !IH, Pos2Nat.inj_xI.
    replace (S (2 * Pos.to_nat p)) with (Pos.to_nat p + (Pos.to_nat p + 1))%nat by lia.
    rewrite !Nat.iter_add. done.
  - rewrite !IH, Pos2Nat.inj_xO.
    replace (2 * Pos.to_nat p)%nat with (Pos.to_nat p + Pos.to_nat p)%nat by lia.
    by rewrite Nat.iter_add.
  - done.
Qed.

Lemma shr_1_m mrs : 0 ≤ shr_m mrs → shr_m (shr_1 mrs) = shr_m mrs / 2.
Proof.
  destruct mrs as [m r s]. cbn [shr_m]. intros Hm.
  destruct m as [|p|p]; [reflexivity| |lia].
  destruct p as [p|p|]; cbn [shr_1 shr_m].
  - apply (Z.div_unique _ _ _ 1); lia.
  - apply (Z.div_unique _ _ _ 0); lia.
  - reflexivity.
Qed.

Lemma iter_shr_1_m n mrs :
  0 ≤ shr_m mrs →
  shr_m (Nat.iter n shr_1 mrs) = shr_m mrs / 2 ^ Z.of_nat n.
Proof.
  intros Hm. induction n as [|n IH].
  - cbn. by rewrite Z.div_1_r.
  - change (Nat.iter (S n) shr_1 mrs) with (shr_1 (Nat.iter n shr_1 mrs)).
    rewrite shr_1_m.
    + rewrite IH, Nat2Z.inj_succ, Z.pow_succ_r by lia.
      rewrite Z.div_div by lia. f_equal. lia.
    + rewrite IH. apply Z.div_pos; lia.
Qed.


Lemma digits2_unique p n :
  2 ^ (n - 1) ≤ Zpos p < 2 ^ n → Zpos (digits2_pos p) = n.
Proof.
  intros [Hlo Hhi]. pose proof (digits2_bounds p) as [Hlo' Hhi'].
  destruct (Z.lt_trichotomy (Zpos (digits2_pos p)) n) as [Hlt|[Heq|Hgt]]; [|done|].
  - assert (2 ^ Zpos (digits2_pos p) ≤ 2 ^ (n - 1)) by (apply Z.pow_le_mono_r; lia). lia.
  - assert (0 ≤ n).
    { destruct (Z.le_gt_cases 0 n); [done|]. rewrite Z.pow_neg_r in Hhi by lia. lia. }
    assert (2 ^ n ≤ 2 ^ (Zpos (digits2_pos p) - 1)) by (apply Z.pow_le_mono_r; lia). lia.
Qed.

Lemma shr_long mx ex :
  53 < Zpos (digits2_pos mx) → -1074 ≤ ex →
  ∃ mrs,
    shr_fexp 53 1024 (Zpos mx) ex loc_Exact
    = (mrs, ex + (Zpos (digits2_pos mx) - 53)) ∧
    shr_m mrs = Zpos mx / 2 ^ (Zpos (digits2_pos mx) - 53).
Proof.
  intros Hd Hex. unfold shr_fexp, fexp, emin. cbn [Zdigits2 shr_record_of_loc].
  rewrite Z.max_l by lia.
  replace (Zpos (digits2_pos mx) + ex - 53 - ex) with (Zpos (digits2_pos mx) - 53) by lia.
  destruct (Zpos (digits2_pos mx) - 53) as [|p|p] eqn:Hk; [lia| |lia].
  cbn [shr]. eexists. split; [reflexivity|].
  rewrite iter_pos_nat, iter_shr_1_m by (cbn; lia). cbn [shr_m].
  by rewrite positive_nat_Z.
Qed.

Lemma shr_short m e :
  2 ^ 52 ≤ Zpos m < 2 ^ 53 → -1074 ≤ e →
  shr_fexp 53 1024 (Zpos m) e loc_Exact
  = ({| shr_m := Zpos m; shr_r := false; shr_s := false |}, e).
Proof.
  intros Hm He. unfold shr_fexp, fexp, emin. cbn [Zdigits2 shr_record_of_loc].
  rewrite (digits2_unique m 53) by (cbn; lia).
  rewrite Z.max_l by lia. replace (53 + e - 53 - e) with 0 by lia. done.
Qed.

Lemma shr_carry e :
  -1074 ≤ e →
  shr_fexp 53 1024 (2 ^ 53) e loc_Exact
  = ({| shr_m := 2 ^ 52; shr_r := false; shr_s := false |}, e + 1).
Proof.
  intros He. unfold shr_fexp, fexp, emin.
  change (Zdigits2 (2 ^ 53)) with 54.
  rewrite Z.max_l by lia. replace (54 + e - 53 - e) with 1 by lia. done.
Qed.

Lemma round_nearest_even_cases q l :
  round_nearest_even q l = q ∨ round_nearest_even q l = q + 1.
Proof.
  destruct l as [|[| |]]; cbn; auto. destruct (Z.even q); auto.
Qed.

(** [binary_round_aux] on an integer [mx] of more than 53 bits: the
    mantissa of the result is the quotient of [mx] by the power of two that
    leaves 53 bits, or that quotient plus one. *)
Lemma binary_round_aux_long mx ex :
  53 < Zpos (digits2_pos mx) →
  -1074 ≤ ex →
  Zpos (digits2_pos mx) + ex ≤ 1023 →
  let k := Zpos (digits2_pos mx) - 53 in
  let q := Zpos mx / 2 ^ k in
  2 ^ 52 ≤ q < 2 ^ 53 ∧
  ∃ m e,
    binary_round_aux 53 1024 false (Zpos mx) ex loc_Exact = S754_finite false m e ∧
    ((Zpos m < 2 ^ 53 ∧ (Zpos m = q ∨ Zpos m = q + 1) ∧ e = ex + k) ∨
     (q + 1 = 2 ^ 53 ∧ Zpos m = 2 ^ 52 ∧ e = ex + k + 1)).
Proof.
  intros Hd Hex Hmax k q.
  pose proof (digits2_bounds mx) as [Hlo Hhi].
  assert (Hk : 0 < k) by (unfold k; lia).
  assert (Hq : 2 ^ 52 ≤ q < 2 ^ 53).
  { unfold q. split.
    - apply Z.div_le_lower_bound; [lia|].
      rewrite <-Z.pow_add_r by lia.
      by replace (k + 52) with (Zpos (digits2_pos mx) - 1) by (unfold k; lia).
    - apply Z.div_lt_upper_bound; [lia|].
      rewrite <-Z.pow_add_r by lia.
      by replace (k + 53) with (Zpos (digits2_pos mx)) by (unfold k; lia). }
  split; [done|].
  unfold binary_round_aux.
  destruct (shr_long mx ex Hd Hex) as (mrs & -> & Hmrs). fold k in Hmrs |- *. fold q in Hmrs.
  rewrite Hmrs.
  destruct (round_nearest_even_cases q (loc_of_shr_record mrs)) as [->| ->].
  - destruct q as [|qp|qp] eqn:Hqp; [lia| |lia].
    rewrite shr_short by lia. cbn [shr_m].
    destruct (Z.leb_spec (ex + k) (1024 - 53)); [|unfold k in *; lia].
    exists qp, (ex + k). split; [done|]. left. split_and!; [lia|by left|done].
  - destruct (decide (q + 1 = 2 ^ 53)) as [Hc|Hc].
    + rewrite Hc, shr_carry by lia. cbn [shr_m].
      change (2 ^ 52) with (Zpos (2 ^ 52)%positive).
      destruct (Z.leb_spec (ex + k + 1) (1024 - 53)); [|unfold k in *; lia].
      exists (2 ^ 52)%positive, (ex + k + 1). split; [done|]. right. done.
    + destruct (q + 1) as [|qp|qp] eqn:Hqp; [lia| |lia].
      rewrite shr_short by lia. cbn [shr_m].
      destruct (Z.leb_spec (ex + k) (1024 - 53)); [|unfold k in *; lia].
      exists qp, (ex + k). split; [done|]. left. split_and!; [lia|by right|done].
Qed.

Lemma pos_iter_xO m d : Zpos (Pos.iter xO m d) = Zpos m * 2 ^ Zpos d.
Proof.
  induction d as [|d IH] using Pos.peano_ind.
  - cbn. lia.
  - rewrite Pos.iter_succ, Pos2Z.inj_xO, IH, Pos2Z.inj_succ, Z.pow_succ_r; lia.
Qed.

Lemma one_eq : float64.of_Z 1 = S754_finite false (2 ^ 52)%positive (-52).
Proof. reflexivity. Qed.

(** A number of the format below 1 has an exponent of at most -53. *)
Lemma unit_exponent m e :
  valid_binary 53 1024 (S754_finite false m e) = true →
  Zpos (digits2_pos m) + e ≤ 0 →
  -1074 ≤ e ≤ -53.
Proof.
  cbn. unfold bounded, canonical_mantissa, fexp, emin.
  intros [Hc%Z.eqb_eq _]%andb_true_iff Hd. lia.
Qed.

(** [r + 1.0] for [r] below 1: a number from 1 to 2. *)
Lemma add_one m e :
  valid_binary 53 1024 (S754_finite false m e) = true →
  Zpos (digits2_pos m) + e ≤ 0 →
  ∃ M E,
    float64.add (S754_finite false m e) (float64.of_Z 1) = S754_finite false M E ∧
    ((2 ^ 52 ≤ Zpos M < 2 ^ 53 ∧ E = -52) ∨ (Zpos M = 2 ^ 52 ∧ E = -51)).
Proof.
  intros Hv Hd. pose proof (unit_exponent m e Hv Hd) as He.
  pose proof (digits2_bounds m) as [Hlo Hhi].
  rewrite one_eq. unfold float64.add, float64.prec, float64.emax, SFadd.
  rewrite Z.min_l by lia. unfold shl_align at 1 2.
  rewrite Z.sub_diag.
  destruct (e - -52) as [|d|d] eqn:Hdiff; [lia|lia|].
  cbn [fst cond_Zopp].
  set (one_ := Pos.iter xO (2 ^ 52)%positive d).
  assert (Hone : Zpos one_ = 2 ^ (- e)).
  { unfold one_. rewrite pos_iter_xO.
    change (Zpos (2 ^ 52)) with (2 ^ 52). rewrite <-Z.pow_add_r by lia.
    f_equal. lia. }
  change (Zpos m + Zpos one_) with (Zpos (m + one_)).
  cbn [binary_normalize]. unfold binary_round.
  assert (Hm : Zpos m < 2 ^ (- e)).
  { eapply Z.lt_le_trans; [exact Hhi|]. apply Z.pow_le_mono_r; lia. }
  assert (Hn : Zpos (digits2_pos (m + one_)) = - e + 1).
  { apply digits2_unique. rewrite Pos2Z.inj_add, Hone.
    replace (- e + 1 - 1) with (- e) by lia.
    replace (- e + 1) with (Z.succ (- e)) by lia.
    rewrite Z.pow_succ_r by lia. lia. }
  rewrite Hn. unfold fexp, emin.
  replace (Z.max (- e + 1 + e - 53) (3 - 1024 - 53)) with (-52) by lia.
  unfold shl_align.
  destruct (-52 - e) as [|d'|d'] eqn:Hdiff'; [|clear Hdiff'|lia].
  2: { destruct (binary_round_aux_long (m + one_) e) as (Hq & M & E & -> & Hcases);
       [lia..|].
       exists M, E. split; [done|].
       destruct Hcases as [(Hlt & Hcase & ->)|(_ & HM & ->)]; [left|right; lia].
       split; [|lia]. cbv zeta in Hq, Hcase. destruct Hcase; lia. }
  lia.
Qed.

Lemma seconds_eq :
  time.Seconds minWatchTimeout = S754_finite false 5277655813324800 (-44).
Proof. reflexivity. Qed.

Lemma to_int64_small M E :
  (E = -44 ∨ E = -43) →
  Zpos M < 2 ^ 54 →
  float64.to_int64 (S754_finite false M E) = Zpos M / 2 ^ (- E).
Proof.
  intros HE HM. unfold float64.to_int64. cbn [cond_Zopp].
  assert (Hpow : 2 ^ 43 ≤ 2 ^ (- E)) by (apply Z.pow_le_mono_r; lia).
  change (2 ^ 43) with 8796093022208 in Hpow.
  change (2 ^ 54) with 18014398509481984 in HM.
  assert (Hv : Z.quot (Z.shiftl (Zpos M) (Z.max E 0)) (2 ^ Z.max (- E) 0)
               = Zpos M / 2 ^ (- E)).
  { rewrite Z.max_r, Z.max_l, Z.shiftl_0_r by lia.
    apply Z.quot_div_nonneg; lia. }
  rewrite Hv.
  assert (0 ≤ Zpos M / 2 ^ (- E) < 2 ^ 63).
  { split; [apply Z.div_pos; lia|].
    apply Z.div_lt_upper_bound; [lia|].
    change (2 ^ 63) with 9223372036854775808. nia. }
  destruct (Z.leb_spec (- 2 ^ 63) (Zpos M / 2 ^ (- E))); [|lia].
  destruct (Z.ltb_spec (Zpos M / 2 ^ (- E)) (2 ^ 63)); [done|lia].
Qed.

(** [300.0 * x] for [x] from 1 to 2, as an integer. *)
Lemma timeout_of_sum M E :
  (2 ^ 52 ≤ Zpos M < 2 ^ 53 ∧ E = -52) ∨ (Zpos M = 2 ^ 52 ∧ E = -51) →
  300 ≤ float64.to_int64
          (float64.mul (S754_finite false 5277655813324800 (-44))
             (S754_finite false M E)) ≤ 600.
Proof.
  intros [[HM ->]|[HM ->]].
  2: { assert (M = (2 ^ 52)%positive) as -> by lia. by vm_compute. }
  unfold float64.mul, float64.prec, float64.emax, SFmul. cbn [xorb].
  set (P := (5277655813324800 * M)%positive).
  assert (HP : Zpos P = 5277655813324800 * Zpos M) by (unfold P; lia).
  change (2 ^ 52) with 4503599627370496 in HM.
  change (2 ^ 53) with 9007199254740992 in HM.
  destruct (decide (Zpos P < 2 ^ 105)) as [Hsmall|Hbig].
  - assert (Hdig : Zpos (digits2_pos P) = 105).
    { apply digits2_unique.
      change (2 ^ (105 - 1)) with 20282409603651670423947251286016.
      change (2 ^ 105) with 40564819207303340847894502572032 in *. lia. }
    destruct (binary_round_aux_long P (-44 + -52)) as (Hq & M' & E' & -> & Hcases);
      [lia..|].
    cbv zeta in Hq, Hcases. rewrite Hdig in Hq, Hcases.
    set (q := Zpos P / 2 ^ (105 - 53)) in *.
    assert (Hqlo : 2 ^ (105 - 53) * q ≤ Zpos P) by (apply Z.mul_div_le; lia).
    assert (Hqhi : Zpos P < 2 ^ (105 - 53) * Z.succ q) by (apply Z.mul_succ_div_gt; lia).
    change (2 ^ (105 - 53)) with 4503599627370496 in Hqlo, Hqhi.
    change (2 ^ 52) with 4503599627370496 in Hq, Hcases.
    change (2 ^ 53) with 9007199254740992 in Hq, Hcases.
    destruct Hcases as [(Hlt & Hcase & HE)|(Hc & HM' & HE)].
    + rewrite to_int64_small by (change (2 ^ 54) with 18014398509481984; lia).
      replace (- E') with 44 by lia. change (2 ^ 44) with 17592186044416.
      split.
      * apply Z.div_le_lower_bound; [lia|]. destruct Hcase; lia.
      * apply Z.lt_succ_r, Z.div_lt_upper_bound; lia.
    + rewrite to_int64_small by (change (2 ^ 54) with 18014398509481984; lia).
      replace (- E') with 43 by lia. rewrite HM'. by vm_compute.
  - assert (Hdig : Zpos (digits2_pos P) = 106).
    { apply digits2_unique.
      change (2 ^ (106 - 1)) with 40564819207303340847894502572032.
      change (2 ^ 105) with 40564819207303340847894502572032 in *.
      change (2 ^ 106) with 81129638414606681695789005144064. lia. }
    destruct (binary_round_aux_long P (-44 + -52)) as (Hq & M' & E' & -> & Hcases);
      [lia..|].
    cbv zeta in Hq, Hcases. rewrite Hdig in Hq, Hcases.
    set (q := Zpos P / 2 ^ (106 - 53)) in *.
    assert (Hqlo : 2 ^ (106 - 53) * q ≤ Zpos P) by (apply Z.mul_div_le; lia).
    assert (Hqhi : Zpos P < 2 ^ (106 - 53) * Z.succ q) by (apply Z.mul_succ_div_gt; lia).
    change (2 ^ (106 - 53)) with 9007199254740992 in Hqlo, Hqhi.
    change (2 ^ 52) with 4503599627370496 in Hq, Hcases.
    change (2 ^ 53) with 9007199254740992 in Hq, Hcases.
    destruct Hcases as [(Hlt & Hcase & HE)|(Hc & HM' & HE)]; [|lia].
    rewrite to_int64_small by (change (2 ^ 54) with 18014398509481984; lia).
    replace (- E') with 43 by lia. change (2 ^ 43) with 8796093022208.
    split.
    + apply Z.div_le_lower_bound; [lia|]. destruct Hcase; lia.
    + apply Z.lt_succ_r, Z.div_lt_upper_bound; [lia|]. destruct Hcase; lia.
Qed.

End float_facts.

(** The timeout for every number that [rand.Float64] can return. *)
Lemma timeoutSeconds_bounds r :
  float64.unit_interval r → 300 ≤ timeoutSeconds r ≤ 600.
Proof.
  intros [Hv [->|(m & e & -> & Hd)]]; [by vm_compute|].
  unfold timeoutSeconds. rewrite float_facts.seconds_eq.
  destruct (float_facts.add_one m e Hv Hd) as (M & E & -> & Hcases).
  by apply float_facts.timeout_of_sum.
Qed.

Lemma timeouts_app acts acts' :
  timeouts (acts ++ acts') = timeouts acts ++ timeouts acts'.
Proof. apply omap_app. Qed.

Lemma timeouts_cons a acts :
  timeouts (a :: acts) =
  match a with
  | CallWatch _ t => t :: timeouts acts
  | _ => timeouts acts
  end.
Proof. by destruct a. Qed.

Lemma loadItems_timeouts index items g :
  timeouts (loadItems index items g).1 = [].
Proof.
  revert g. induction items as [|pod items IH]; intros g; cbn; [done|].
  specialize (IH (mapAssign index (v1.Pod_UID pod) (podInfo pod) g)).
  destruct (loadItems index items _) as [acts g']. cbn in *.
  by rewrite timeouts_cons.
Qed.

Lemma podEvents_timeouts index evs rv g :
  timeouts (podEvents index evs rv g).1 = [].
Proof.
  revert rv g. induction evs as [|ev evs IH]; intros rv g; cbn; [done|].
  destruct (decide (watch.Type_ ev = watch.Error)); [done|].
  destruct (watch.Object_ ev) as [pod| | |]; try apply IH.
  destruct (decide (watch.Type_ ev = watch.Added)).
  { specialize (IH (v1.Pod_ResourceVersion pod)
                  (mapAssign index (v1.Pod_UID pod) (podInfo pod) g)).
    destruct (podEvents _ _ _ _) as [acts [[g' rv'] r]]. cbn in *.
    by rewrite timeouts_cons. }
  destruct (decide (watch.Type_ ev = watch.Deleted)); [|apply IH].
  specialize (IH (v1.Pod_ResourceVersion pod) (mapDelete index (v1.Pod_UID pod) g)).
  destruct (podEvents _ _ _ _) as [acts [[g' rv'] r]]. cbn in *.
  by rewrite timeouts_cons.
Qed.

Lemma eventEvents_timeouts evs rv : timeouts (eventEvents evs rv).1 = [].
Proof.
  revert rv. induction evs as [|ev evs IH]; intros rv; cbn; [done|].
  destruct (decide (watch.Type_ ev = watch.Error)); [done|].
  destruct (watch.Object_ ev) as [|event| |]; try apply IH.
  specialize (IH (v1.Event_ResourceVersion event)).
  destruct (eventEvents evs _) as [acts [rv' r]]. cbn [fst] in *.
  rewrite timeouts_app, IH, app_nil_r.
  destruct (negb _); [done|]. destruct (negb _); [done|]. destruct (negb _); [done|].
  destruct (extractPID _) as [pid [e|]]; done.
Qed.

(** The watches of a script that a loop has used up give, in order, the
    timeouts it has passed to [Watch]. *)
Lemma podWatches_timeouts index watches rv g :
  (timeoutSeconds ∘ draw) <$> watches =
  timeouts (podWatches index watches rv g).1
  ++ ((timeoutSeconds ∘ draw) <$> (podWatches index watches rv g).2.1.2).
Proof.
  revert rv g. induction watches as [|w watches IH]; intros rv g; cbn; [done|].
  destruct (events w) as [evs|e]; cbn; [|done].
  pose proof (podEvents_timeouts index evs rv g) as Hev.
  destruct (podEvents index evs rv g) as [acts [[g' rv'] r]]. cbn in *.
  destruct r as [err|]; cbn; [by rewrite timeouts_cons, Hev|].
  specialize (IH rv' g').
  destruct (podWatches index watches rv' g') as [acts' [[g'' ws] r']]. cbn in *.
  by rewrite timeouts_cons, timeouts_app, Hev, IH.
Qed.

Lemma eventWatches_timeouts watches rv :
  (timeoutSeconds ∘ draw) <$> watches =
  timeouts (eventWatches watches rv).1
  ++ ((timeoutSeconds ∘ draw) <$> (eventWatches watches rv).2.1).
Proof.
  revert rv. induction watches as [|w watches IH]; intros rv; cbn; [done|].
  destruct (events w) as [evs|e]; cbn; [|done].
  pose proof (eventEvents_timeouts evs rv) as Hev.
  destruct (eventEvents evs rv) as [acts [rv' r]]. cbn in *.
  destruct r as [err|]; cbn; [by rewrite timeouts_cons, Hev|].
  specialize (IH rv').
  destruct (eventWatches watches rv') as [acts' [ws r']]. cbn in *.
  by rewrite timeouts_cons, timeouts_app, Hev, IH.
Qed.

Lemma podIndexer_timeouts lists watches g :
  timeouts (podIndexer lists watches g).1 `prefix_of`
  ((timeoutSeconds ∘ draw) <$> watches).
Proof.
  revert watches g. induction lists as [|list_ lists IH]; intros watches g; cbn.
  { apply prefix_nil. }
  destruct list_ as [l|e]; cbn; [|apply prefix_nil].
  destruct (loadItems _ (Items l) _) as [acts g2] eqn:Hload.
  pose proof (loadItems_timeouts (length (heap g)) (Items l)
                {| heap := heap g ++ [∅]; uidIndex := uidIndex g |}) as Hl.
  rewrite Hload in Hl. cbn in Hl.
  pose proof (podWatches_timeouts (length (heap g)) watches (ResourceVersion l)
                (publish (length (heap g)) g2)) as Hw.
  destruct (podWatches _ watches _ _) as [acts' [[g4 ws] r]]. cbn in *.
  assert (Hacts : timeouts (acts ++ Store (publish (length (heap g)) g2) :: acts')
                  = timeouts acts').
  { by rewrite timeouts_app, Hl, timeouts_cons. }
  destruct r as [err|]; cbn [fst];
    [|rewrite !timeouts_cons, Hacts, Hw; by apply prefix_app_r].
  destruct (isExpired err); cbn [fst];
    [|rewrite !timeouts_cons, Hacts, Hw; by apply prefix_app_r].
  specialize (IH ws g4). destruct (podIndexer lists ws g4) as [acts'' e]. cbn [fst] in *.
  rewrite !timeouts_cons, timeouts_app, Hacts, Hw. by apply prefix_app.
Qed.

Lemma eventWatcher_timeouts lists watches :
  timeouts (eventWatcher lists watches).1 `prefix_of`
  ((timeoutSeconds ∘ draw) <$> watches).
Proof.
  revert watches. induction lists as [|list_ lists IH]; intros watches; cbn.
  { apply prefix_nil. }
  destruct list_ as [l|e]; cbn.
  - pose proof (eventWatches_timeouts watches (ResourceVersion l)) as Hw.
    destruct (eventWatches watches (ResourceVersion l)) as [acts [ws r]]. cbn in *.
    destruct r as [err|]; cbn [fst];
      [|rewrite timeouts_cons, Hw; by apply prefix_app_r].
    destruct (isExpired err); cbn [fst];
      [|rewrite timeouts_cons, Hw; by apply prefix_app_r].
    specialize (IH ws). destruct (eventWatcher lists ws) as [acts'' e]. cbn [fst] in *.
    rewrite timeouts_cons, timeouts_app, Hw. by apply prefix_app.
  - destruct (isExpired e); [|apply prefix_nil].
    specialize (IH watches). by destruct (eventWatcher lists watches) as [acts'' e'].
Qed.

(** C9, as amended.  In a run of either watcher the timeouts passed to
    [Watch] are, in the order of the calls, the numbers
    [int64(minWatchTimeout.Seconds() * (r + 1.0))] for the draws [r] of
    [rand.Float64]; when every draw is a [float64] that is at least 0 and
    below 1, every one of these timeouts is at least [T] = 300 seconds and
    at most [2T] = 600 seconds. *)
Theorem watch_timeout_bounds
    (podLists : list (result (ListOf v1.Pod)))
    (eventLists : list (result (ListOf v1.Event)))
    (watches : list WatchAnswer) (g : Globals) :
  Forall (λ w, float64.unit_interval (draw w)) watches →
  T = 300 ∧
  timeouts (podIndexer podLists watches g).1 `prefix_of`
    ((timeoutSeconds ∘ draw) <$> watches) ∧
  timeouts (eventWatcher eventLists watches).1 `prefix_of`
    ((timeoutSeconds ∘ draw) <$> watches) ∧
  Forall (λ t, T ≤ t ≤ 2 * T) (timeouts (podIndexer podLists watches g).1) ∧
  Forall (λ t, T ≤ t ≤ 2 * T) (timeouts (eventWatcher eventLists watches).1).
Proof.
  intros Hdraws.
  assert (Hall : Forall (λ t, T ≤ t ≤ 2 * T) ((timeoutSeconds ∘ draw) <$> watches)).
  { apply Forall_fmap. eapply Forall_impl; [exact Hdraws|].
    intros w Hw. apply (timeoutSeconds_bounds _ Hw). }
  pose proof (podIndexer_timeouts podLists watches g) as Hp.
  pose proof (eventWatcher_timeouts eventLists watches) as He.
  split_and!; [reflexivity|exact Hp|exact He| |].
  - destruct Hp as [k Hk]. rewrite Hk in Hall. by apply Forall_app in Hall as [? _].
  - destruct He as [k Hk]. rewrite Hk in Hall. by apply Forall_app in Hall as [? _].
Qed.

Lemma watch_timeout_bounds_witness :
  Forall (λ w, float64.unit_interval (draw w)) [quietWatch (S754_zero false)] ∧
  Forall (λ t, T ≤ t ≤ 2 * T)
    (timeouts (eventWatcher [emptyList] [quietWatch (S754_zero false)]).1).
Proof.
  assert (H : Forall (λ w, float64.unit_interval (draw w)) [quietWatch (S754_zero false)]).
  { repeat constructor. }
  split; [exact H|].
  exact (proj2 (proj2 (proj2 (proj2
    (watch_timeout_bounds [] [emptyList] [quietWatch (S754_zero false)] initial H))))).
Defined.

(** C9, the counterexample.  [1 - 2^-53] is a [float64] that is at least 0
    and below 1; adding [1.0] to it rounds to [2.0], and the timeout is
    [2T] = 600 seconds, which is not below [2T].  Both watchers pass it to
    [Watch]. *)
Lemma watch_timeout_reaches_2T :
  float64.unit_interval largestBelowOne ∧
  float64.add largestBelowOne (float64.of_Z 1) = float64.of_Z 2 ∧
  timeoutSeconds largestBelowOne = 2 * T ∧
  timeouts (eventWatcher [emptyList] [quietWatch largestBelowOne]).1 = [2 * T] ∧
  timeouts (podIndexer [emptyList] [quietWatch largestBelowOne] initial).1 = [2 * T] ∧
  ¬ (∀ r, float64.unit_interval r → T ≤ timeoutSeconds r < 2 * T).
Proof.
  assert (Hu : float64.unit_interval largestBelowOne).
  { split; [by vm_compute|]. right. exists (2 ^ 53 - 1)%positive, (-53).
    split; [reflexivity|by vm_compute]. }
  assert (Ht : timeoutSeconds largestBelowOne = 2 * T) by (by vm_compute).
  split_and!; [exact Hu|by vm_compute|exact Ht|by vm_compute|by vm_compute|].
  intros H. specialize (H _ Hu). rewrite Ht in H. lia.
Qed.

(** ** Reading back a PID that [%d] has printed *)

Lemma string_of_uint_acc d acc :
  decimal_from (Zpos acc) (NilEmpty.string_of_uint d) = Zpos (Pos.of_uint_acc d acc).
Proof.
  revert acc. induction d; intros acc; cbn [NilEmpty.string_of_uint decimal_from Pos.of_uint_acc];
    [done|rewrite <- IHd; f_equal; cbn; lia..].
Qed.

Lemma string_of_uint_decimal d :
  decimal_from 0 (NilEmpty.string_of_uint d) = Z.of_N (Pos.of_uint d).
Proof.
  induction d; cbn [NilEmpty.string_of_uint decimal_from Pos.of_uint];
    [done|exact IHd|apply string_of_uint_acc..].
Qed.

Lemma string_of_uint_digits d : Str.all digit (NilEmpty.string_of_uint d) = true.
Proof. induction d; cbn; done. Qed.

(** [%d] prints a non-empty string of decimal digits that denotes the
    number. *)
Lemma fmt_d_decimal n :
  0 ≤ n →
  fmt.d n ≠ EmptyString ∧ Str.all digit (fmt.d n) = true ∧ decimal (fmt.d n) = n.
Proof.
  intros Hn. unfold fmt.d, decimal.
  pose proof (DecimalN.Unsigned.of_to (Z.to_N n)) as Hof.
  destruct (N.to_uint (Z.to_N n)) as [|d|d|d|d|d|d|d|d|d|d] eqn:Hd;
    (split; [done|]; split; [try done; apply (string_of_uint_digits d)|]);
    unfold NilZero.string_of_uint;
    try (rewrite string_of_uint_decimal; unfold N.of_uint in Hof; rewrite Hof; lia).
  cbn in Hof. cbn. lia.
Qed.

Lemma digit_not_space c : digit c = true → space c = false.
Proof. destruct c as [[] [] [] [] [] [] [] []]; by vm_compute. Qed.

(** With a maximal run of the class in front, the longest way comes
    first. *)
Lemma splits_longest cls p r :
  p ≠ EmptyString → Str.all cls p = true → starts_with cls r = false →
  ∃ l, splits cls (p +:+ r) = (p, r) :: l.
Proof.
  induction p as [|c p IH]; [done|]. intros _ Hall Hr.
  cbn in Hall. apply andb_true_iff in Hall as [Hc Hall].
  rewrite Str.app_cons. cbn. rewrite Hc. destruct p as [|c' p].
  - rewrite Str.app_nil_l. destruct r as [|c' r]; cbn; [by eexists|].
    cbn in Hr. rewrite Hr. by eexists.
  - destruct IH as [l Hl]; [done..|]. rewrite Hl. by eexists.
Qed.

Lemma matchHere_lits s re x cap :
  matchHere (lits s ++ re) (s +:+ x) cap = matchHere re x cap.
Proof.
  induction s as [|c s IH]; [by rewrite Str.app_nil_l|].
  rewrite Str.app_cons. cbn. by rewrite Ascii.eqb_refl.
Qed.

Lemma matchHere_plus cls re p r cap res :
  p ≠ EmptyString → Str.all cls p = true → starts_with cls r = false →
  matchHere re r cap = Some res →
  matchHere (Plus cls :: re) (p +:+ r) cap = Some res.
Proof.
  intros Hp Hall Hr Hm. destruct (splits_longest cls p r) as [l Hl]; [done..|].
  cbn. rewrite Hl. cbn. by rewrite Hm.
Qed.

Lemma matchHere_group cls p r cap :
  p ≠ EmptyString → Str.all cls p = true → starts_with cls r = false →
  matchHere [CapPlus cls] (p +:+ r) cap = Some (p, r).
Proof.
  intros Hp Hall Hr. destruct (splits_longest cls p r) as [l Hl]; [done..|].
  cbn. by rewrite Hl.
Qed.

Lemma starts_with_app cls p r :
  p ≠ EmptyString → starts_with cls (p +:+ r) = starts_with cls p.
Proof. destruct p; [done|]. by rewrite Str.app_cons. Qed.

Lemma starts_with_all cls cls' p :
  p ≠ EmptyString → Str.all cls p = true → (∀ c, cls c = true → cls' c = false) →
  starts_with cls' p = false.
Proof.
  destruct p as [|c p]; [done|]. cbn. intros _ [Hc _]%andb_true_iff Hcls. auto.
Qed.

Lemma pid_match_at ws1 ws2 ds rest :
  ws1 ≠ EmptyString → Str.all space ws1 = true →
  ws2 ≠ EmptyString → Str.all space ws2 = true →
  ds ≠ EmptyString → Str.all digit ds = true →
  starts_with digit rest = false →
  matchHere pidRegExp ("Kill" +:+ ws1 +:+ "process" +:+ ws2 +:+ ds +:+ rest) EmptyString
  = Some (ds, rest).
Proof.
  intros Hw1 Ha1 Hw2 Ha2 Hds Hall Hrest. unfold pidRegExp.
  rewrite matchHere_lits. apply matchHere_plus; [done..| |].
  { by rewrite !Str.app_cons. }
  rewrite matchHere_lits. apply matchHere_plus; [done..| |].
  - rewrite starts_with_app by done.
    apply (starts_with_all digit); [done..|apply digit_not_space].
  - by apply matchHere_group.
Qed.

(** The search skips a prefix at no position of which the pattern can
    start. *)
Lemma Find_skip re pre s cap rest :
  (∀ pre1 pre2, pre = pre1 +:+ pre2 → pre2 ≠ EmptyString →
     matchHere re (pre2 +:+ s) EmptyString = None) →
  matchHere re s EmptyString = Some (cap, rest) →
  ∃ l, FindStringSubmatch re (pre +:+ s) = Some l ∧ nth 1 l EmptyString = cap.
Proof.
  intros Hpre Hm. induction pre as [|c pre IH].
  - rewrite Str.app_nil_l, Find_eq, Hm. by eexists.
  - assert (Hnone : matchHere re (String c (pre +:+ s)) EmptyString = None).
    { rewrite <- Str.app_cons. by apply (Hpre EmptyString (String c pre)). }
    rewrite Str.app_cons, Find_eq, Hnone. apply IH. intros pre1 pre2 -> Hne.
    by apply (Hpre (String c pre1)).
Qed.

Lemma pid_no_match_without_K c s :
  Ascii.eqb c "K" = false → matchHere pidRegExp (String c s) EmptyString = None.
Proof.
  intros Hc.
  change (matchHere pidRegExp (String c s) EmptyString)
    with (if Ascii.eqb "K" c then matchHere (tl pidRegExp) s EmptyString else None).
  by rewrite Ascii.eqb_sym, Hc.
Qed.

Lemma all_app_r p (s1 s2 : string) :
  Str.all p (s1 +:+ s2) = true → Str.all p s2 = true.
Proof. rewrite Str.all_app. by intros [_ ?]%andb_true_iff. Qed.

(** X1.  [extractPID] reads back a process id that [%d] has printed.  For
    every [n] that fits [uint64], a message made of a prefix without the
    letter [K], the word [Kill], white space, the word [process], white
    space, the decimal digits of [n] as [fmt] prints them, and a rest that
    does not start with a digit gives the PID [n] and no error. *)
Theorem extractPID_reads_back_fmt_d (pre ws1 ws2 rest : string) (n : Z) :
  0 ≤ n ≤ strconv.maxUint64 →
  Str.all (λ c, negb (Ascii.eqb c "K")) pre = true →
  ws1 ≠ EmptyString → Str.all space ws1 = true →
  ws2 ≠ EmptyString → Str.all space ws2 = true →
  starts_with digit rest = false →
  extractPID (pre +:+ "Kill" +:+ ws1 +:+ "process" +:+ ws2 +:+ fmt.d n +:+ rest)
  = (n, None).
Proof.
  intros Hn Hpre Hw1 Ha1 Hw2 Ha2 Hrest.
  destruct (fmt_d_decimal n) as (Hne & Hall & Hdec); [lia|].
  destruct (Find_skip pidRegExp pre
              ("Kill" +:+ ws1 +:+ "process" +:+ ws2 +:+ fmt.d n +:+ rest)
              (fmt.d n) rest) as (l & Hl & Hcap).
  - intros pre1 [|c pre2] -> Hne2; [done|]. rewrite Str.app_cons.
    apply pid_no_match_without_K. apply all_app_r in Hpre. cbn in Hpre.
    apply andb_true_iff in Hpre as [Hc _]. by apply negb_true_iff.
  - by apply pid_match_at.
  - unfold extractPID. rewrite Hl, Hcap, ParseUint_digits, Hdec by done.
    destruct (Z.leb_spec n strconv.maxUint64); [done|lia].
Qed.

Lemma extractPID_reads_back_fmt_d_witness :
  extractPID ("Memory cgroup out of memory: " +:+ "Kill" +:+ " " +:+ "process" +:+ " "
              +:+ fmt.d 4821 +:+ " (java) score 1000 or sacrifice child")
  = (4821, None).
Proof.
  apply extractPID_reads_back_fmt_d; [by vm_compute|reflexivity|done|reflexivity|done|reflexivity|reflexivity].
Defined.

(** ** The signals of the event watcher, in general *)

Lemma sent_app acts acts' : sent (acts ++ acts') = sent acts ++ sent acts'.
Proof. apply omap_app. Qed.

Lemma sent_cons a acts :
  sent (a :: acts) = match a with Send e => e :: sent acts | _ => sent acts end.
Proof. by destruct a. Qed.

Lemma untilError_sublist evs : untilError evs `sublist_of` evs.
Proof.
  induction evs as [|ev evs IH]; cbn; [constructor|].
  destruct (decide _); [apply sublist_nil_l|by constructor].
Qed.

Lemma eventEvents_sent evs rv :
  sent (eventEvents evs rv).1 = untilError evs ≫= signals.
Proof.
  revert rv. induction evs as [|ev evs IH]; intros rv; cbn; [done|].
  destruct (decide (watch.Type_ ev = watch.Error)) as [Herr|Herr]; [done|].
  cbn. unfold signals at 1, qualifies.
  destruct (watch.Object_ ev) as [pod|event|reason message|kind]; cbn; try apply IH.
  specialize (IH (v1.Event_ResourceVersion event)).
  destruct (eventEvents evs (v1.Event_ResourceVersion event)) as [acts r].
  cbn [fst] in *. rewrite sent_app, IH. f_equal.
  destruct (bool_decide (watch.Type_ ev = watch.Added)); cbn; [|done].
  destruct (String.eqb (v1.Reason event) "OOMKilling"); cbn; [|done].
  destruct (String.eqb (v1.Ref_Kind (v1.InvolvedObject event)) "Node"); cbn; [|done].
  by destruct (extractPID (v1.Message event)) as [pid [e|]].
Qed.

Lemma eventWatches_sent ws rv :
  ∃ used evs,
    ws = used ++ (eventWatches ws rv).2.1 ∧
    evs `sublist_of` concat (channel <$> used) ∧
    sent (eventWatches ws rv).1 = evs ≫= signals.
Proof.
  revert rv. induction ws as [|w ws IH]; intros rv; cbn.
  { exists [], []. split_and!; [done|constructor|done]. }
  destruct (events w) as [evs|err] eqn:Hw; cbn.
  - pose proof (eventEvents_sent evs rv) as Hs.
    destruct (eventEvents evs rv) as [acts [rv' r]]. cbn in Hs.
    destruct r as [err|]; cbn.
    + exists [w], (untilError evs). split_and!; [done| |done].
      cbn. unfold channel. rewrite Hw, app_nil_r. apply untilError_sublist.
    + destruct (IH rv') as (used & evs' & Hused & Hsub & Hsent).
      destruct (eventWatches ws rv') as [acts' [ws' r']]. cbn in *.
      exists (w :: used), (untilError evs ++ evs'). split_and!.
      * by rewrite Hused at 1.
      * rewrite fmap_cons. cbn [concat]. unfold channel at 1. rewrite Hw.
        apply sublist_app; [apply untilError_sublist|done].
      * by rewrite sent_cons, sent_app, Hs, Hsent, bind_app.
  - exists [w], []. split_and!; [done|apply sublist_nil_l|done].
Qed.

(** The signals a run of [eventWatcher] sends are those of events of the
    script, in the order of the script. *)
Lemma eventWatcher_sent lists ws :
  ∃ evs,
    evs `sublist_of` concat (channel <$> ws) ∧
    sent (eventWatcher lists ws).1 = evs ≫= signals.
Proof.
  revert ws. induction lists as [|list_ lists IH]; intros ws; cbn.
  { exists []. split; [apply sublist_nil_l|done]. }
  destruct list_ as [l|err]; cbn.
  - destruct (eventWatches_sent ws (ResourceVersion l)) as (used & evs & Hused & Hsub & Hsent).
    destruct (eventWatches ws (ResourceVersion l)) as [acts [ws' r]]. cbn in *.
    assert (Hhere : evs `sublist_of` concat (channel <$> ws)).
    { rewrite Hused, fmap_app, concat_app. by apply sublist_inserts_r. }
    destruct r as [err|]; cbn; [|by exists evs].
    destruct (isExpired err); cbn; [|by exists evs].
    destruct (IH ws') as (evs' & Hsub' & Hsent').
    destruct (eventWatcher lists ws') as [acts' e]. cbn in *.
    exists (evs ++ evs'). split.
    + rewrite Hused, fmap_app, concat_app. by apply sublist_app.
    + by rewrite sent_cons, sent_app, Hsent, Hsent', bind_app.
  - destruct (isExpired err); cbn.
    + destruct (IH ws) as (evs' & Hsub' & Hsent').
      destruct (eventWatcher lists ws) as [acts' e]. cbn in *. by exists evs'.
    + exists []. split; [apply sublist_nil_l|done].
Qed.

Lemma extractPID_range message :
  0 ≤ (extractPID message).1 ≤ strconv.maxUint64 ∧
  ((extractPID message).2 ≠ None → (extractPID message).1 = 0).
Proof.
  unfold extractPID.
  destruct (FindStringSubmatch pidRegExp message) as [l|] eqn:Hfind; [|by vm_compute].
  apply FindPid_Some in Hfind as (pre & rest & Hm).
  destruct Hm as (Hm & _). destruct Hm as (ws1 & ws2 & _ & _ & _ & _ & _ & Hne & Hall).
  rewrite ParseUint_digits by done.
  pose proof (decimal_from_ge 0 _ ltac:(lia) Hall) as Hge. fold (decimal (nth 1 l EmptyString)) in Hge.
  destruct (Z.leb_spec (decimal (nth 1 l EmptyString)) strconv.maxUint64); cbn.
  - split; [lia|done].
  - by vm_compute.
Qed.

Lemma signals_wellFormed ev : Forall wellFormed (signals ev).
Proof.
  unfold signals. destruct (watch.Object_ ev) as [|event| |]; try constructor.
  destruct (qualifies ev); [|constructor].
  destruct (extractPID_range (v1.Message event)) as [Hr Hz].
  destruct (extractPID (v1.Message event)) as [pid [e|]]; cbn in *.
  - rewrite Hz by done.
    constructor; [split; [by vm_compute|by intros _]|].
    constructor; [split; [by vm_compute|by intros []]|constructor].
  - constructor; [split; [exact Hr|by intros []]|constructor].
Qed.

(** X3.  Every signal the event watcher sends on the channel, on any
    script of list and watch answers, is well formed: its PID is between 0
    and the largest [uint64], and a signal that carries an error has the
    empty node name and the PID 0. *)
Theorem eventWatcher_signals_wellFormed
    (lists : list (result (ListOf v1.Event))) (watches : list WatchAnswer) :
  Forall wellFormed (sent (eventWatcher lists watches).1).
Proof.
  destruct (eventWatcher_sent lists watches) as (evs & _ & ->).
  apply Forall_forall. intros e (ev & He & _)%list_elem_of_bind.
  by eapply Forall_forall in He; [|apply signals_wellFormed].
Qed.

Lemma signals_length l1 l2 :
  l1 `sublist_of` l2 →
  (length (l1 ≫= signals) ≤ 2 * length (filter (λ ev, qualifies ev = true) l2))%nat.
Proof.
  induction 1 as [|ev l1 l2 _ IH|ev l1 l2 _ IH]; [done| |].
  - rewrite bind_cons, length_app, filter_cons. unfold signals at 1.
    destruct (watch.Object_ ev) as [|event| |] eqn:Hobj;
      try (destruct (decide _); cbn; lia).
    destruct (qualifies ev) eqn:Hq.
    + rewrite decide_True by done.
      destruct (extractPID (v1.Message event)) as [pid [e|]]; cbn; lia.
    + rewrite decide_False by done. cbn. lia.
  - rewrite filter_cons. destruct (decide _); cbn; lia.
Qed.

(** X4.  The signals the event watcher sends follow the events of the
    script: they are, in order, the signals of a subsequence of the events
    the watches deliver, where an event that does not pass the filters
    (not an addition, not a [v1.Event], another reason than [OOMKilling],
    another kind than [Node]) has no signal, and an event that passes has
    its success signal, preceded by the failure signal when the extraction
    of the PID fails.  So at most two signals are sent per event that passes
    the filters, none when no event passes, and every signal sent is the
    success or the failure signal of such an event of the script. *)
Theorem eventWatcher_signals_follow_the_events
    (lists : list (result (ListOf v1.Event))) (watches : list WatchAnswer) :
  (∃ evs,
     evs `sublist_of` concat (channel <$> watches) ∧
     sent (eventWatcher lists watches).1 = evs ≫= signals) ∧
  (length (sent (eventWatcher lists watches).1)
   ≤ 2 * length (filter (λ ev, qualifies ev = true) (concat (channel <$> watches))))%nat ∧
  ∀ e, e ∈ sent (eventWatcher lists watches).1 →
    ∃ ev event,
      ev ∈ concat (channel <$> watches) ∧ qualifies ev = true ∧
      watch.Object_ ev = EventObject event ∧
      (e = {| Node := v1.Ref_Name (v1.InvolvedObject event);
              PID := (extractPID (v1.Message event)).1; Error := None |} ∨
       ∃ err, (extractPID (v1.Message event)).2 = Some err ∧
              e = {| Node := EmptyString; PID := 0; Error := Some err |}).
Proof.
  destruct (eventWatcher_sent lists watches) as (evs & Hsub & Hsent).
  split; [by exists evs|]. rewrite Hsent.
  split; [by apply signals_length|].
  intros e (ev & He & Hev)%list_elem_of_bind.
  unfold signals in He. destruct (watch.Object_ ev) as [|event| |] eqn:Hobj;
    try by apply elem_of_nil in He.
  destruct (qualifies ev) eqn:Hq; [|by apply elem_of_nil in He].
  exists ev, event. split_and!; [by eapply elem_of_sublist|done..|].
  destruct (extractPID (v1.Message event)) as [pid [err|]]; cbn.
  - apply elem_of_cons in He as [->|He]; [right; by exists err|].
    apply list_elem_of_singleton in He as ->. by left.
  - apply list_elem_of_singleton in He as ->. by left.
Qed.

(** ** Where a watch resumes *)

Lemma versions_app acts acts' :
  versions (acts ++ acts') = versions acts ++ versions acts'.
Proof. apply omap_app. Qed.

Lemma versions_cons a acts :
  versions (a :: acts) =
  match a with CallWatch rv _ => rv :: versions acts | _ => versions acts end.
Proof. by destruct a. Qed.

Lemma lastVersion_cons version rv ev evs :
  lastVersion version rv (ev :: evs) =
  lastVersion version (default rv (version ev)) evs.
Proof.
  unfold lastVersion. cbn. destruct (version ev) as [rv'|]; [|done].
  rewrite last_cons. by destruct (last _).
Qed.

Lemma lastVersion_app version rv evs evs' :
  lastVersion version rv (evs ++ evs') =
  lastVersion version (lastVersion version rv evs) evs'.
Proof.
  revert rv. induction evs as [|ev evs IH]; intros rv; [done|].
  by rewrite <- app_comm_cons, !lastVersion_cons, IH.
Qed.

Lemma versionAfter_S version rv w watches k :
  versionAfter version rv (w :: watches) (S k) =
  versionAfter version (lastVersion version rv (channel w)) watches k.
Proof. unfold versionAfter. cbn. apply lastVersion_app. Qed.

Lemma eventEvents_versions evs rv : versions (eventEvents evs rv).1 = [].
Proof.
  revert rv. induction evs as [|ev evs IH]; intros rv; cbn; [done|].
  destruct (decide _); [done|].
  destruct (watch.Object_ ev) as [|event| |]; try apply IH.
  specialize (IH (v1.Event_ResourceVersion event)).
  destruct (eventEvents evs _) as [acts r]. cbn in *. rewrite versions_app, IH, app_nil_r.
  destruct (negb _); [done|]. destruct (negb _); [done|]. destruct (negb _); [done|].
  by destruct (extractPID _) as [pid [e|]].
Qed.

Lemma eventEvents_cursor evs rv :
  firstError evs = None →
  (eventEvents evs rv).2.1 = lastVersion eventVersion rv evs.
Proof.
  revert rv. induction evs as [|ev evs IH]; intros rv; cbn; [done|].
  destruct (decide _); [done|]. intros Hevs.
  rewrite lastVersion_cons. unfold eventVersion at 2.
  destruct (watch.Object_ ev) as [|event| |]; cbn; try by apply IH.
  specialize (IH (v1.Event_ResourceVersion event) Hevs).
  by destruct (eventEvents evs _) as [acts r].
Qed.

Lemma podEvents_versions index evs rv g : versions (podEvents index evs rv g).1 = [].
Proof.
  revert rv g. induction evs as [|ev evs IH]; intros rv g; cbn; [done|].
  destruct (decide _); [done|].
  destruct (watch.Object_ ev) as [pod| | |]; try apply IH.
  destruct (decide _).
  { specialize (IH (v1.Pod_ResourceVersion pod)
                  (mapAssign index (v1.Pod_UID pod) (podInfo pod) g)).
    destruct (podEvents index evs _ _) as [acts r]. cbn in *. by rewrite versions_cons. }
  destruct (decide _); [|apply IH].
  specialize (IH (v1.Pod_ResourceVersion pod) (mapDelete index (v1.Pod_UID pod) g)).
  destruct (podEvents index evs _ _) as [acts r]. cbn in *. by rewrite versions_cons.
Qed.

Lemma podEvents_cursor index evs rv g :
  firstError evs = None →
  (podEvents index evs rv g).2.1.2 = lastVersion podVersion rv evs.
Proof.
  revert rv g. induction evs as [|ev evs IH]; intros rv g; cbn; [done|].
  destruct (decide _); [done|]. intros Hevs.
  rewrite lastVersion_cons. unfold podVersion at 2.
  destruct (watch.Object_ ev) as [pod| | |]; cbn; try by apply IH.
  destruct (decide _).
  { specialize (IH (v1.Pod_ResourceVersion pod)
                  (mapAssign index (v1.Pod_UID pod) (podInfo pod) g) Hevs).
    by destruct (podEvents index evs _ _) as [acts r]. }
  destruct (decide _); [|by apply IH].
  specialize (IH (v1.Pod_ResourceVersion pod) (mapDelete index (v1.Pod_UID pod) g) Hevs).
  by destruct (podEvents index evs _ _) as [acts r].
Qed.

Lemma versionAfter_seq version rv w watches :
  versionAfter version rv (w :: watches) <$> seq 0 (S (length watches)) =
  rv :: (versionAfter version (lastVersion version rv (channel w)) watches
           <$> seq 0 (length watches)).
Proof.
  cbn [seq fmap list_fmap]. f_equal. rewrite <- fmap_S_seq, <- list_fmap_compose.
  apply list_fmap_ext. intros i k _. apply versionAfter_S.
Qed.

Lemma eventWatches_versions watches rv :
  versions (eventWatches watches rv).1 `prefix_of`
  (versionAfter eventVersion rv watches <$> seq 0 (length watches)).
Proof.
  revert rv. induction watches as [|w watches IH]; intros rv; [apply prefix_nil|].
  cbn [length]. rewrite versionAfter_seq. cbn. unfold channel.
  destruct (events w) as [evs|err]; cbn;
    [|rewrite versions_cons; apply prefix_cons, prefix_nil].
  pose proof (eventEvents_versions evs rv) as Hv.
  pose proof (eventEvents_cursor evs rv) as Hc.
  pose proof (eventEvents_error evs rv) as He.
  destruct (eventEvents evs rv) as [acts [rv' r]]. cbn in *. subst r.
  destruct (firstError evs) as [err|]; cbn.
  { rewrite versions_cons, Hv. apply prefix_cons, prefix_nil. }
  rewrite <- Hc by done. specialize (IH rv').
  destruct (eventWatches watches rv') as [acts' r']. cbn in *.
  rewrite versions_cons, versions_app, Hv. by apply prefix_cons.
Qed.

Lemma podWatches_versions index watches rv g :
  versions (podWatches index watches rv g).1 `prefix_of`
  (versionAfter podVersion rv watches <$> seq 0 (length watches)).
Proof.
  revert rv g. induction watches as [|w watches IH]; intros rv g; [apply prefix_nil|].
  cbn [length]. rewrite versionAfter_seq. cbn. unfold channel.
  destruct (events w) as [evs|err]; cbn;
    [|rewrite versions_cons; apply prefix_cons, prefix_nil].
  pose proof (podEvents_versions index evs rv g) as Hv.
  pose proof (podEvents_cursor index evs rv g) as Hc.
  pose proof (podEvents_shape index evs rv g) as (He & _).
  destruct (podEvents index evs rv g) as [acts [[g' rv'] r]]. cbn in *. subst r.
  destruct (firstError evs) as [err|]; cbn.
  { rewrite versions_cons, Hv. apply prefix_cons, prefix_nil. }
  rewrite <- Hc by done. specialize (IH rv' g').
  destruct (podWatches index watches rv' g') as [acts' r']. cbn in *.
  rewrite versions_cons, versions_app, Hv. by apply prefix_cons.
Qed.

Lemma loadItems_versions index items g : versions (loadItems index items g).1 = [].
Proof.
  revert g. induction items as [|pod items IH]; intros g; cbn; [done|].
  specialize (IH (mapAssign index (v1.Pod_UID pod) (podInfo pod) g)).
  destruct (loadItems index items _) as [acts g']. cbn in *. by rewrite versions_cons.
Qed.

(** X5.  Where a watch resumes.  In a call of [internalEventWatcher] and
    in a call of [internalPodIndexer] that got its snapshot, the resource
    versions passed to [Watch] are, call after call, the resource version
    of the last object of the right type ([v1.Event], [v1.Pod]) that the
    watches before have delivered, whatever the type of the watch event and
    whether or not it passed the filters, and the resource version of the
    list when they have delivered none. *)
Theorem watches_resume_from_last_version :
  (∀ (l : ListOf v1.Event) (watches : list WatchAnswer),
     versions (internalEventWatcher (Ok l) watches).1 `prefix_of`
     (versionAfter eventVersion (ResourceVersion l) watches
        <$> seq 0 (length watches))) ∧
  (∀ (l : ListOf v1.Pod) (watches : list WatchAnswer) (g : Globals),
     versions (internalPodIndexer (Ok l) watches g).1 `prefix_of`
     (versionAfter podVersion (ResourceVersion l) watches
        <$> seq 0 (length watches))).
Proof.
  split.
  - intros l watches. cbn.
    pose proof (eventWatches_versions watches (ResourceVersion l)) as H.
    destruct (eventWatches watches (ResourceVersion l)) as [acts r]. cbn in *.
    by rewrite versions_cons.
  - intros l watches g. cbn.
    pose proof (loadItems_versions (length (heap g)) (Items l)
                  {| heap := heap g ++ [∅]; uidIndex := uidIndex g |}) as Hl.
    destruct (loadItems _ (Items l) _) as [acts g2]. cbn in Hl.
    pose proof (podWatches_versions (length (heap g)) watches (ResourceVersion l)
                  (publish (length (heap g)) g2)) as H.
    destruct (podWatches _ watches _ _) as [acts' [[g4 ws] r]]. cbn in *.
    by rewrite !versions_cons, versions_app, Hl, versions_cons.
Qed.

(** ** Errors of [List] *)

(** X6.  Errors of [List].  The pod indexer ends the process on every
    error of [List], also on the status [Expired], after that one call and
    without a write to the shared memory.  The event watcher calls [List]
    again at once for each [Expired] error of [List], without a [Watch] in
    between, and goes on as a watcher started on the rest of the script;
    on any other error of [List] it ends the process. *)
Theorem list_errors :
  (∀ err lists watches g,
     podIndexer (Err err :: lists) watches g = ([CallList], (g, Fatal err))) ∧
  (∀ errs lists watches,
     Forall (λ err, isExpired err = true) errs →
     eventWatcher ((Err <$> errs) ++ lists) watches =
     (replicate (length errs) CallList ++ (eventWatcher lists watches).1,
      (eventWatcher lists watches).2)) ∧
  (∀ err lists watches,
     isExpired err = false →
     eventWatcher (Err err :: lists) watches = ([CallList], Fatal err)).
Proof.
  split_and!.
  - done.
  - intros errs lists watches Herrs. induction Herrs as [|err errs Herr _ IH]; cbn.
    + by destruct (eventWatcher lists watches).
    + rewrite Herr, IH. done.
  - intros err lists watches Herr. cbn. by rewrite Herr.
Qed.

Lemma list_errors_witness :
  Forall (λ err, isExpired err = true) [StatusError StatusReasonExpired "Expired"] ∧
  eventWatcher ((Err <$> [StatusError StatusReasonExpired "Expired"]) ++ [emptyList])
    [quietWatch (S754_zero false)] =
  (replicate 1 CallList ++ (eventWatcher [emptyList] [quietWatch (S754_zero false)]).1,
   (eventWatcher [emptyList] [quietWatch (S754_zero false)]).2).
Proof.
  assert (H : Forall (λ err, isExpired err = true) [StatusError StatusReasonExpired "Expired"]).
  { by repeat constructor. }
  split; [exact H|].
  exact (proj1 (proj2 list_errors) [StatusError StatusReasonExpired "Expired"]
           [emptyList] [quietWatch (S754_zero false)] H).
Defined.

(** ** The writes of the pod indexer *)

Lemma evolves_refl index g : evolves index g g.
Proof.
  split_and!; [apply same_shape_refl|done|]. intros m Hm. by exists [].
Qed.

Lemma evolves_trans index g1 g2 g3 :
  evolves index g1 g2 → evolves index g2 g3 → evolves index g1 g3.
Proof.
  intros (Hs & Hf & Hm) (Hs' & Hf' & Hm'). split_and!.
  - by eapply same_shape_trans.
  - intros i Hi. by rewrite Hf', Hf.
  - intros m (ns & Hns)%Hm. apply Hm' in Hns as (ns' & Hns').
    exists (ns ++ ns'). by rewrite foldl_app.
Qed.

Lemma evolves_mapAssign index uid info g : evolves index g (mapAssign index uid info g).
Proof.
  split_and!; [apply same_shape_mapAssign| |].
  - intros i Hi. cbn. by apply list_lookup_alter_ne.
  - intros m Hm. exists [Add (podOf uid info)]. cbn.
    rewrite list_lookup_alter_eq, Hm. by destruct info.
Qed.

Lemma evolves_mapDelete index uid g : evolves index g (mapDelete index uid g).
Proof.
  split_and!; [apply same_shape_mapDelete| |].
  - intros i Hi. cbn. by apply list_lookup_alter_ne.
  - intros m Hm. exists [Remove (podOf uid {| Name := EmptyString; Namespace := EmptyString |})].
    cbn. by rewrite list_lookup_alter_eq, Hm.
Qed.

Lemma Forall_evolves index g g' l :
  evolves index g g' → Forall (evolves index g') l → Forall (evolves index g) l.
Proof.
  intros Hg Hall. eapply Forall_impl; [exact Hall|].
  intros g''. by apply evolves_trans.
Qed.

Lemma loadItems_evolves index items g :
  Forall (evolves index g) (stores (loadItems index items g).1) ∧
  evolves index g (loadItems index items g).2.
Proof.
  revert g. induction items as [|pod items IH]; intros g; cbn.
  { split; [constructor|apply evolves_refl]. }
  specialize (IH (mapAssign index (v1.Pod_UID pod) (podInfo pod) g)).
  destruct (loadItems index items _) as [acts g']. cbn in *.
  destruct IH as [Hall Hfin].
  pose proof (evolves_mapAssign index (v1.Pod_UID pod) (podInfo pod) g) as Hs.
  split; [|by eapply evolves_trans].
  constructor; [done|]. by eapply Forall_evolves.
Qed.

Lemma podEvents_evolves index evs rv g :
  Forall (evolves index g) (stores (podEvents index evs rv g).1) ∧
  evolves index g (podEvents index evs rv g).2.1.1.
Proof.
  revert rv g. induction evs as [|ev evs IH]; intros rv g; cbn.
  { split; [constructor|apply evolves_refl]. }
  destruct (decide (watch.Type_ ev = watch.Error)).
  { split; [constructor|apply evolves_refl]. }
  destruct (watch.Object_ ev) as [pod| | |]; try apply IH.
  destruct (decide (watch.Type_ ev = watch.Added)).
  { specialize (IH (v1.Pod_ResourceVersion pod)
                  (mapAssign index (v1.Pod_UID pod) (podInfo pod) g)).
    destruct (podEvents _ _ _ _) as [acts [[g' rv'] r]]. cbn in *.
    destruct IH as [Hall Hfin].
    pose proof (evolves_mapAssign index (v1.Pod_UID pod) (podInfo pod) g) as Hs.
    split; [|by eapply evolves_trans].
    constructor; [done|]. by eapply Forall_evolves. }
  destruct (decide (watch.Type_ ev = watch.Deleted)); [|apply IH].
  specialize (IH (v1.Pod_ResourceVersion pod) (mapDelete index (v1.Pod_UID pod) g)).
  destruct (podEvents _ _ _ _) as [acts [[g' rv'] r]]. cbn in *.
  destruct IH as [Hall Hfin].
  pose proof (evolves_mapDelete index (v1.Pod_UID pod) g) as Hs.
  split; [|by eapply evolves_trans].
  constructor; [done|]. by eapply Forall_evolves.
Qed.

Lemma podWatches_evolves index watches rv g :
  Forall (evolves index g) (stores (podWatches index watches rv g).1) ∧
  evolves index g (podWatches index watches rv g).2.1.1.
Proof.
  revert rv g. induction watches as [|w watches IH]; intros rv g; cbn.
  { split; [constructor|apply evolves_refl]. }
  destruct (events w) as [evs|e]; cbn; [|split; [constructor|apply evolves_refl]].
  pose proof (podEvents_evolves index evs rv g) as [Hall Hfin].
  destruct (podEvents index evs rv g) as [acts [[g' rv'] r]]. cbn in *.
  destruct r as [err|]; cbn; [done|].
  specialize (IH rv' g').
  destruct (podWatches index watches rv' g') as [acts' [[g'' ws] r']]. cbn in *.
  destruct IH as [Hall' Hfin'].
  split; [|by eapply evolves_trans].
  rewrite stores_app. apply Forall_app. split; [done|]. by eapply Forall_evolves.
Qed.

(** The writes of a call of [internalPodIndexer] that got its snapshot:
    until the publication the pointer and the maps of before are as they
    were; from the publication on the pointer is the address of the new map,
    which holds the whole snapshot, and the maps of before are still as they
    were. *)
Lemma internalPodIndexer_writes l watches g :
  ∃ loading rest g' watches' r,
    internalPodIndexer (Ok l) watches g
    = (CallList :: loading ++ rest, (g', watches', r)) ∧
    Forall (λ g1, uidIndex g1 = uidIndex g ∧ keeps g g1) (stores loading) ∧
    Forall (published (Items l) g) (stores rest) ∧
    published (Items l) g g'.
Proof.
  unfold internalPodIndexer. cbn [makeMap].
  set (index := length (heap g)).
  set (g1 := {| heap := heap g ++ [∅]; uidIndex := uidIndex g |}).
  assert (H1 : heap g1 !! index = Some ∅).
  { cbn. by rewrite lookup_app_r, Nat.sub_diag. }
  assert (Hk1 : keeps g g1).
  { intros i m Hi. cbn. by apply lookup_app_l_Some. }
  assert (Hframe : ∀ g2, evolves index g1 g2 → uidIndex g2 = uidIndex g ∧ keeps g g2).
  { intros g2 ((_ & Hp) & Hf & _). split; [done|]. intros i m Hi.
    rewrite Hf; [by apply Hk1|]. apply lookup_lt_Some in Hi. unfold index. lia. }
  pose proof (loadItems_fold index (Items l) g1 ∅ H1) as Hload.
  pose proof (loadItems_evolves index (Items l) g1) as (Hall & Hfin).
  destruct (loadItems index (Items l) g1) as [acts g2]. cbn in Hload, Hall, Hfin.
  set (g3 := publish index g2).
  assert (Hpub : published (Items l) g g3).
  { pose proof Hfin as ((Hlen & _) & _). split_and!.
    - done.
    - cbn. rewrite Hlen. cbn. rewrite length_app. cbn. lia.
    - destruct (Hframe g2 Hfin) as [_ Hk2]. exact Hk2.
    - exists (foldl applyNotification ∅ (Add <$> Items l)). split.
      + cbn. rewrite Hload. cbn. apply list_lookup_insert_eq.
        rewrite length_app. cbn. unfold index. lia.
      + exists []. by rewrite app_nil_r. }
  assert (Hlater : ∀ g4, evolves index g3 g4 → published (Items l) g g4).
  { intros g4 ((Hlen & Hp) & Hf & Hm).
    destruct Hpub as (Hp3 & Hlen3 & Hk3 & m & Hm3 & ns & ->). split_and!.
    - by rewrite Hp.
    - by rewrite Hlen.
    - intros i m' Hi. rewrite Hf; [by apply Hk3|].
      apply lookup_lt_Some in Hi. unfold index. lia.
    - destruct (Hm _ Hm3) as (ns' & Hns'). eexists. split; [exact Hns'|].
      exists (ns ++ ns'). rewrite app_assoc. symmetry. apply foldl_app. }
  pose proof (podWatches_evolves index watches (ResourceVersion l) g3) as [Hall' Hfin'].
  destruct (podWatches _ watches _ g3) as [acts' [[g4 ws] r]]. cbn in Hall', Hfin'.
  exists (Store g1 :: acts), (Store g3 :: acts'), g4, ws,
    (match r with Some err => Returned err | None => Running end).
  split_and!; [done| | |by apply Hlater].
  - cbn. constructor; [done|].
    eapply Forall_impl; [exact Hall|]. apply Hframe.
  - cbn. constructor; [done|].
    eapply Forall_impl; [exact Hall'|]. apply Hlater.
Qed.

Lemma keeps_refl g : keeps g g.
Proof. by intros i m. Qed.

Lemma keeps_trans g1 g2 g3 : keeps g1 g2 → keeps g2 g3 → keeps g1 g3.
Proof. intros H12 H23 i m Hi. by apply H23, H12. Qed.

(** X7.  The pod indexer writes to the maps it has allocated itself and
    to no other: in every memory it writes, on any script and across any
    number of restarts, and in the memory it ends with, each map that was
    there when it started is at its address as it was. *)
Theorem podIndexer_keeps_older_maps
    (lists : list (result (ListOf v1.Pod))) (watches : list WatchAnswer)
    (g : Globals) :
  Forall (keeps g) (stores (podIndexer lists watches g).1) ∧
  keeps g (podIndexer lists watches g).2.1.
Proof.
  revert watches g. induction lists as [|list_ lists IH]; intros watches g.
  { split; [apply Forall_nil_2|apply keeps_refl]. }
  destruct list_ as [l|err]; [|split; [apply Forall_nil_2|apply keeps_refl]].
  cbn [podIndexer].
  destruct (internalPodIndexer_writes l watches g)
    as (loading & rest & g' & ws & r & -> & Hload & Hrest & Hfin).
  assert (Hhere : Forall (keeps g) (stores (CallList :: loading ++ rest))).
  { cbn. rewrite stores_app. apply Forall_app. split.
    - eapply Forall_impl; [exact Hload|]. by intros g1 [_ ?].
    - eapply Forall_impl; [exact Hrest|]. by intros g1 (_ & _ & ? & _). }
  assert (Hk : keeps g g') by apply Hfin.
  destruct r as [err|err|]; [|done..].
  destruct (isExpired err); [|done].
  destruct (IH ws g') as [Hall' Hfin'].
  destruct (podIndexer lists ws g') as [acts' [g'' e]]. cbn in *. split.
  - rewrite stores_app, stores_app. rewrite stores_app in Hhere.
    apply Forall_app. split; [done|].
    eapply Forall_impl; [exact Hall'|]. intros g1. by apply keeps_trans.
  - by eapply keeps_trans.
Qed.




(** ** A watch that ends without an error *)

Lemma listCalls_app acts acts' :
  listCalls (acts ++ acts') = (listCalls acts + listCalls acts')%nat.
Proof. unfold listCalls. by rewrite omap_app, length_app. Qed.

Lemma listCalls_cons a acts :
  listCalls (a :: acts) =
  match a with CallList => S (listCalls acts) | _ => listCalls acts end.
Proof. by destruct a. Qed.

Lemma eventEvents_listCalls evs rv : listCalls (eventEvents evs rv).1 = 0%nat.
Proof.
  revert rv. induction evs as [|ev evs IH]; intros rv; cbn; [done|].
  destruct (decide _); [done|].
  destruct (watch.Object_ ev) as [|event| |]; try apply IH.
  specialize (IH (v1.Event_ResourceVersion event)).
  destruct (eventEvents evs _) as [acts r]. cbn in *. rewrite listCalls_app, IH.
  destruct (negb _); [done|]. destruct (negb _); [done|]. destruct (negb _); [done|].
  by destruct (extractPID _) as [pid [e|]].
Qed.

Lemma podEvents_listCalls index evs rv g : listCalls (podEvents index evs rv g).1 = 0%nat.
Proof.
  revert rv g. induction evs as [|ev evs IH]; intros rv g; cbn; [done|].
  destruct (decide _); [done|].
  destruct (watch.Object_ ev) as [pod| | |]; try apply IH.
  destruct (decide _).
  { specialize (IH (v1.Pod_ResourceVersion pod)
                  (mapAssign index (v1.Pod_UID pod) (podInfo pod) g)).
    destruct (podEvents index evs _ _) as [acts r]. cbn in *. by rewrite listCalls_cons. }
  destruct (decide _); [|apply IH].
  specialize (IH (v1.Pod_ResourceVersion pod) (mapDelete index (v1.Pod_UID pod) g)).
  destruct (podEvents index evs _ _) as [acts r]. cbn in *. by rewrite listCalls_cons.
Qed.

Lemma loadItems_listCalls index items g : listCalls (loadItems index items g).1 = 0%nat.
Proof.
  revert g. induction items as [|pod items IH]; intros g; cbn; [done|].
  specialize (IH (mapAssign index (v1.Pod_UID pod) (podInfo pod) g)).
  destruct (loadItems index items _) as [acts g']. cbn in *. by rewrite listCalls_cons.
Qed.

Lemma eventWatches_quiet watches rv :
  Forall (λ w, watchError w = None) watches →
  (eventWatches watches rv).2 = ([], None) ∧
  listCalls (eventWatches watches rv).1 = 0%nat.
Proof.
  intros Hall. revert rv. induction Hall as [|w watches Hw _ IH]; intros rv; cbn; [done|].
  unfold watchError in Hw. destruct (events w) as [evs|err]; [|done]. cbn.
  pose proof (eventEvents_error evs rv) as He.
  pose proof (eventEvents_listCalls evs rv) as Hl.
  destruct (eventEvents evs rv) as [acts [rv' r]]. cbn in *.
  rewrite He, Hw. destruct (IH rv') as [Hr Hl'].
  destruct (eventWatches watches rv') as [acts' r']. cbn in *.
  by rewrite listCalls_cons, listCalls_app, Hl, Hl'.
Qed.

Lemma podWatches_quiet index watches rv g :
  Forall (λ w, watchError w = None) watches →
  (podWatches index watches rv g).2.1.2 = [] ∧
  (podWatches index watches rv g).2.2 = None ∧
  listCalls (podWatches index watches rv g).1 = 0%nat.
Proof.
  intros Hall. revert rv g.
  induction Hall as [|w watches Hw _ IH]; intros rv g; cbn; [done|].
  unfold watchError in Hw. destruct (events w) as [evs|err]; [|done]. cbn.
  pose proof (podEvents_shape index evs rv g) as (He & _).
  pose proof (podEvents_listCalls index evs rv g) as Hl.
  destruct (podEvents index evs rv g) as [acts [[g' rv'] r]]. cbn in *.
  rewrite He, Hw. destruct (IH rv' g') as (Hws & Hr & Hl').
  destruct (podWatches index watches rv' g') as [acts' [[g'' ws] r']]. cbn in *.
  by rewrite listCalls_cons, listCalls_app, Hl, Hl'.
Qed.

(** X9.  A watch that ends without an error is followed by the next
    [Watch] and not by a new [List].  On a script whose watches all end
    without an error both watchers call [List] once, call [Watch] once per
    watch of the script, with the timeout of its draw, and are then waiting
    for the server; the pod indexer has published the map it allocated. *)
Theorem timeout_is_followed_by_watch
    (el : ListOf v1.Event) (eventLists : list (result (ListOf v1.Event)))
    (pl : ListOf v1.Pod) (podLists : list (result (ListOf v1.Pod)))
    (watches : list WatchAnswer) (g : Globals) :
  Forall (λ w, watchError w = None) watches →
  (∃ acts,
     eventWatcher (Ok el :: eventLists) watches = (acts, Waiting) ∧
     listCalls acts = 1%nat ∧
     timeouts acts = (timeoutSeconds ∘ draw) <$> watches) ∧
  (∃ acts g',
     podIndexer (Ok pl :: podLists) watches g = (acts, (g', Waiting)) ∧
     listCalls acts = 1%nat ∧
     timeouts acts = (timeoutSeconds ∘ draw) <$> watches ∧
     uidIndex g' = Some (length (heap g))).
Proof.
  intros Hall. split.
  - cbn.
    destruct (eventWatches_quiet watches (ResourceVersion el) Hall) as [Hr Hl].
    pose proof (eventWatches_timeouts watches (ResourceVersion el)) as Ht.
    destruct (eventWatches watches (ResourceVersion el)) as [acts [ws r]].
    cbn in *. injection Hr as -> ->. eexists. split_and!; [done| |].
    + by rewrite listCalls_cons, Hl.
    + by rewrite timeouts_cons, Ht, app_nil_r.
  - cbn.
    pose proof (loadItems_listCalls (length (heap g)) (Items pl)
                  {| heap := heap g ++ [∅]; uidIndex := uidIndex g |}) as Hl.
    pose proof (loadItems_timeouts (length (heap g)) (Items pl)
                  {| heap := heap g ++ [∅]; uidIndex := uidIndex g |}) as Ht.
    destruct (loadItems _ (Items pl) _) as [acts g2]. cbn in Hl, Ht.
    destruct (podWatches_quiet (length (heap g)) watches (ResourceVersion pl)
                (publish (length (heap g)) g2) Hall) as (Hws & Hr & Hl').
    pose proof (podWatches_timeouts (length (heap g)) watches (ResourceVersion pl)
                  (publish (length (heap g)) g2)) as Ht'.
    pose proof (podWatches_stores (length (heap g)) watches (ResourceVersion pl)
                  (publish (length (heap g)) g2)) as [_ [_ Hp]].
    destruct (podWatches _ watches _ _) as [acts' [[g4 ws] r]]. cbn in *. subst ws r.
    eexists _, _. split_and!; [done| | |done].
    + by rewrite !listCalls_cons, listCalls_app, Hl, listCalls_cons, Hl'.
    + by rewrite !timeouts_cons, timeouts_app, Ht, timeouts_cons, Ht', app_nil_r.
Qed.

Lemma timeout_is_followed_by_watch_witness :
  Forall (λ w, watchError w = None) [quietWatch (S754_zero false); quietWatch largestBelowOne] ∧
  ∃ acts,
    eventWatcher [Ok {| Items := []; ResourceVersion := "1" |}]
      [quietWatch (S754_zero false); quietWatch largestBelowOne] = (acts, Waiting) ∧
    listCalls acts = 1%nat ∧
    timeouts acts = (timeoutSeconds ∘ draw)
                      <$> [quietWatch (S754_zero false); quietWatch largestBelowOne].
Proof.
  assert (H : Forall (λ w, watchError w = None)
                [quietWatch (S754_zero false); quietWatch largestBelowOne]).
  { by repeat constructor. }
  split; [exact H|].
  exact (proj1 (timeout_is_followed_by_watch {| Items := []; ResourceVersion := "1" |} []
                  {| Items := []; ResourceVersion := "1" |} []
                  [quietWatch (S754_zero false); quietWatch largestBelowOne] initial H)).
Defined.

(** ** What the consumer posts *)

Section posting.

Variable Marshal : gmap string string → string * option error.
Variable webhookURL : string.
Variable respond : nat → http.Answer.

Lemma postMessage_posted data posted :
  (postMessage Marshal webhookURL respond data posted).1 =
  match (Marshal data).2 with
  | Some _ => posted
  | None => posted ++ [requestFor Marshal webhookURL data]
  end.
Proof.
  unfold postMessage, requestFor. destruct (Marshal data) as [jsonValue [e|]]; cbn; [done|].
  destruct (respond (length posted)) as [e|StatusCode Status]; [done|].
  by destruct (_ || _).
Qed.

Lemma postMessage_length data posted :
  posted `prefix_of` (postMessage Marshal webhookURL respond data posted).1 ∧
  (length (postMessage Marshal webhookURL respond data posted).1 ≤ S (length posted))%nat ∧
  ((Marshal data).2 = None →
   length (postMessage Marshal webhookURL respond data posted).1 = S (length posted)).
Proof.
  rewrite postMessage_posted. destruct (Marshal data).2 as [e|].
  - split_and!; [done|lia|done].
  - rewrite length_app. cbn. split_and!; [by apply prefix_app_r|lia|lia].
Qed.

Lemma postMessage_nil data posted :
  (postMessage Marshal webhookURL respond data posted).2 = None →
  (Marshal data).2 = None ∧
  ∃ StatusCode Status,
    respond (length posted) = http.Response StatusCode Status ∧
    200 ≤ StatusCode ≤ 299.
Proof.
  unfold postMessage. destruct (Marshal data) as [jsonValue [e|]]; cbn; [done|].
  destruct (respond (length posted)) as [e|StatusCode Status]; [done|].
  destruct (Z.ltb_spec StatusCode 200); cbn; [done|].
  destruct (Z.ltb_spec 299 StatusCode); cbn; [done|].
  intros _. split; [done|]. exists StatusCode, Status. split; [done|lia].
Qed.

(** A call of [handleOOM] either returns an error, or panics, without a
    request, or it has resolved the occurrence and ends as the call of
    [postMessage] with the alert for the pod. *)
Lemma handleOOM_cases event g db posted :
  ((handleOOM Marshal webhookURL respond event g db posted).1 = posted ∧
   (handleOOM Marshal webhookURL respond event g db posted).2 ≠ Done None) ∨
  ∃ pod nspid,
    Resolved event g db pod nspid ∧
    handleOOM Marshal webhookURL respond event g db posted =
    ((postMessage Marshal webhookURL respond (podAlert pod event nspid) posted).1,
     Done (postMessage Marshal webhookURL respond (podAlert pod event nspid) posted).2).
Proof.
  destruct db as [err|records now].
  { left. unfold handleOOM. cbn. by destruct (decide _). }
  destruct (sql.selectRows records now (Node event) (PID event)) as [|r rest] eqn:Hsel.
  { left. unfold handleOOM. cbn. by rewrite Hsel. }
  destruct (extractUID (sql.cgroup r)) as [uid [e|]] eqn:Huid.
  { left. unfold handleOOM. cbn. by rewrite Hsel, Huid. }
  destruct (uidIndex g) as [p|] eqn:Hp.
  2: { left. unfold handleOOM. cbn. by rewrite Hsel, Huid, Hp. }
  destruct (heap g !! p) as [index|] eqn:Hindex.
  2: { left. unfold handleOOM. cbn. by rewrite Hsel, Huid, Hp, Hindex. }
  destruct (index !! uid) as [pod|] eqn:Hpod.
  2: { left. unfold handleOOM. cbn. by rewrite Hsel, Huid, Hp, Hindex, Hpod. }
  assert (Hres : Resolved event g (sql.Up records now) pod (sql.nspid r)).
  { by exists records, now, r, rest, uid, p, index. }
  right. exists pod, (sql.nspid r). split; [done|]. by apply handleOOM_Resolved.
Qed.

Lemma mainStep_posted st event g db :
  panicked st = false →
  posted (mainStep Marshal webhookURL respond st (event, g, db)) =
  match Error event with
  | Some e => (postMessage Marshal webhookURL respond (errorAlert e) (posted st)).1
  | None =>
      match handleOOM Marshal webhookURL respond event g db (posted st) with
      | (p, Done (Some err)) =>
          (postMessage Marshal webhookURL respond (errorAlert err) p).1
      | (p, _) => p
      end
  end.
Proof.
  intros Hst. unfold mainStep. rewrite Hst. destruct (Error event) as [e|].
  - change (handleError Marshal webhookURL respond e (posted st))
      with (postMessage Marshal webhookURL respond (errorAlert e) (posted st)).
    by destruct (postMessage _ _ _ _ _) as [p [err|]].
  - destruct (handleOOM _ _ _ _ _ _ _) as [p [[err|]|msg]]; [|done..].
    change (handleError Marshal webhookURL respond err p)
      with (postMessage Marshal webhookURL respond (errorAlert err) p).
    by destruct (postMessage _ _ _ _ _) as [p' [err'|]].
Qed.

Lemma mainStep_panicked st event g db :
  panicked st = false →
  panicked (mainStep Marshal webhookURL respond st (event, g, db)) =
  match Error event with
  | Some e => false
  | None =>
      match (handleOOM Marshal webhookURL respond event g db (posted st)).2 with
      | Panic _ => true
      | Done _ => false
      end
  end.
Proof.
  intros Hst. unfold mainStep. rewrite Hst. destruct (Error event) as [e|].
  - by destruct (handleError _ _ _ _ _) as [p [err|]].
  - destruct (handleOOM _ _ _ _ _ _ _) as [p [[err|]|msg]]; [|done..].
    by destruct (handleError _ _ _ _ _) as [p' [err'|]].
Qed.

Lemma mainStep_logged st event g db :
  panicked st = false →
  logged (mainStep Marshal webhookURL respond st (event, g, db)) =
  logged st ++
  match Error event with
  | Some e =>
      match (postMessage Marshal webhookURL respond (errorAlert e) (posted st)).2 with
      | Some err => [error_Error err]
      | None => []
      end
  | None =>
      match handleOOM Marshal webhookURL respond event g db (posted st) with
      | (p, Done (Some err)) =>
          match (postMessage Marshal webhookURL respond (errorAlert err) p).2 with
          | Some err' => [error_Error err']
          | None => []
          end
      | _ => []
      end
  end.
Proof.
  intros Hst. unfold mainStep. rewrite Hst. destruct (Error event) as [e|].
  - change (handleError Marshal webhookURL respond e (posted st))
      with (postMessage Marshal webhookURL respond (errorAlert e) (posted st)).
    destruct (postMessage _ _ _ _ _) as [p [err|]]; cbn; [done|by rewrite app_nil_r].
  - destruct (handleOOM _ _ _ _ _ _ _) as [p [[err|]|msg]]; cbn;
      [|by rewrite app_nil_r..].
    change (handleError Marshal webhookURL respond err p)
      with (postMessage Marshal webhookURL respond (errorAlert err) p).
    destruct (postMessage _ _ _ _ _) as [p' [err'|]]; cbn; [done|by rewrite app_nil_r].
Qed.

(** One turn of the loop keeps the requests made before it and adds at
    most two. *)
Lemma mainStep_posts st turn :
  posted st `prefix_of` posted (mainStep Marshal webhookURL respond st turn) ∧
  (length (posted (mainStep Marshal webhookURL respond st turn))
   ≤ length (posted st) + 2)%nat.
Proof.
  destruct turn as [[event g] db].
  destruct (panicked st) eqn:Hst.
  { unfold mainStep. rewrite Hst. split; [done|lia]. }
  rewrite mainStep_posted by done. destruct (Error event) as [e|].
  { destruct (postMessage_length (errorAlert e) (posted st)) as (Hp & Hl & _).
    split; [done|lia]. }
  destruct (handleOOM_cases event g db (posted st)) as [[Hp Hout]|(pod & nspid & _ & ->)].
  - destruct (handleOOM _ _ _ _ _ _ _) as [p out]. cbn in *. subst p.
    destruct out as [[err|]|msg]; [|done|split; [done|lia]].
    destruct (postMessage_length (errorAlert err) (posted st)) as (Hp & Hl & _).
    split; [done|lia].
  - destruct (postMessage_length (podAlert pod event nspid) (posted st)) as (Hp & Hl & _).
    destruct (postMessage _ _ _ (podAlert pod event nspid) _) as [p [err|]]; cbn in *;
      [|split; [done|lia]].
    destruct (postMessage_length (errorAlert err) p) as (Hp' & Hl' & _).
    split; [by etrans|lia].
Qed.

(** With a serializer that does not fail and an index pointer that is nil
    or valid, one turn does not panic and makes at least one request. *)
Lemma mainStep_posts_once st event g db :
  (∀ data, (Marshal data).2 = None) → allocated g → panicked st = false →
  panicked (mainStep Marshal webhookURL respond st (event, g, db)) = false ∧
  (S (length (posted st))
   ≤ length (posted (mainStep Marshal webhookURL respond st (event, g, db))))%nat.
Proof.
  intros HM Hg Hst. rewrite mainStep_panicked, mainStep_posted by done.
  destruct (Error event) as [e|].
  { destruct (postMessage_length (errorAlert e) (posted st)) as (_ & _ & Hl).
    rewrite Hl by done. done. }
  destruct (handleOOM_cases event g db (posted st)) as [[Hp Hout]|(pod & nspid & _ & Heq)].
  - pose proof (handleOOM_allocated Marshal webhookURL respond event g db (posted st)) as Hnp.
    destruct (handleOOM _ _ _ _ _ _ _) as [p out]. cbn in *. subst p.
    destruct out as [[err|]|msg]; [|done|by destruct (Hnp msg Hg)].
    destruct (postMessage_length (errorAlert err) (posted st)) as (_ & _ & Hl).
    rewrite Hl by done. done.
  - rewrite Heq. cbn.
    destruct (postMessage_length (podAlert pod event nspid) (posted st)) as (_ & _ & Hl).
    specialize (Hl (HM _)).
    destruct (postMessage _ _ _ (podAlert pod event nspid) _) as [p [err|]]; cbn in *;
      [|split; [done|lia]].
    destruct (postMessage_length (errorAlert err) p) as (_ & _ & Hl').
    rewrite Hl' by done. split; [done|lia].
Qed.

End posting.

Lemma resolved_old :
  Resolved signal_node3_500 memory_with_old (sql.Up [record_at_90] 100)
    {| Name := "db-0"; Namespace := "prod" |} 11.
Proof.
  exists [record_at_90], 100, record_at_90, [], "old", 0%nat,
    {[ "old" := {| Name := "db-0"; Namespace := "prod" |} ]}.
  split_and!; [done|by vm_compute|by vm_compute|done|done|apply lookup_singleton_eq|done].
Qed.

(** X10.  [handleOOM] posts the alert for a pod only when it has resolved
    the occurrence.  If a call changes the list of requests, or returns
    [nil], then the database had a record for the signal, the cgroup path of
    the record had a pod segment, the index was published and held the UID,
    and the call added exactly the request for the alert of that pod with
    the nested PID of the record; and it returns [nil] only when the
    webhook answered that request with a status from 200 to 299. *)
Theorem pod_alert_only_for_resolved_oom
    (Marshal : gmap string string → string * option error)
    (webhookURL : string) (respond : nat → http.Answer)
    (event : OOMEvent) (g : Globals) (db : sql.DB) (posted : list http.Request) :
  let out := handleOOM Marshal webhookURL respond event g db posted in
  (out.1 ≠ posted ∨ out.2 = Done None →
   ∃ pod nspid,
     Resolved event g db pod nspid ∧
     out.1 = posted ++ [requestFor Marshal webhookURL (podAlert pod event nspid)]) ∧
  (out.2 = Done None →
   ∃ StatusCode Status,
     respond (length posted) = http.Response StatusCode Status ∧
     200 ≤ StatusCode ≤ 299).
Proof.
  cbn zeta.
  destruct (handleOOM_cases Marshal webhookURL respond event g db posted)
    as [[Hp Hout]|(pod & nspid & Hres & ->)].
  { split; [by intros [?|?]|done]. }
  cbn. split.
  - intros Hor. exists pod, nspid. split; [done|].
    rewrite postMessage_posted in *.
    destruct (Marshal (podAlert pod event nspid)).2 as [e|] eqn:HM; [|done].
    destruct Hor as [?|Hnil]; [done|].
    injection Hnil as Hnil. apply postMessage_nil in Hnil as [? _]. congruence.
  - intros [= Hnil]. by apply postMessage_nil in Hnil as [_ ?].
Qed.

Lemma pod_alert_only_for_resolved_oom_witness :
  (handleOOM emptyMarshal "http://hook" accepting signal_node3_500 memory_with_old
     (sql.Up [record_at_90] 100) []).2 = Done None ∧
  ∃ pod nspid,
    Resolved signal_node3_500 memory_with_old (sql.Up [record_at_90] 100) pod nspid ∧
    (handleOOM emptyMarshal "http://hook" accepting signal_node3_500 memory_with_old
       (sql.Up [record_at_90] 100) []).1
    = [] ++ [requestFor emptyMarshal "http://hook" (podAlert pod signal_node3_500 nspid)].
Proof.
  assert (H : (handleOOM emptyMarshal "http://hook" accepting signal_node3_500
                 memory_with_old (sql.Up [record_at_90] 100) []).2 = Done None).
  { by vm_compute. }
  split; [exact H|].
  exact (proj1 (pod_alert_only_for_resolved_oom emptyMarshal "http://hook" accepting
                  signal_node3_500 memory_with_old (sql.Up [record_at_90] 100) [])
           (or_intror H)).
Defined.

(** X11.  The loop of [main] keeps the requests made before and makes at
    most two requests per signal.  When [json.Marshal] does not fail and the
    index pointer is nil or valid during every turn, the loop does not panic
    and makes at least one request per signal. *)
Theorem consumer_posts_once_or_twice_per_signal
    (Marshal : gmap string string → string * option error)
    (webhookURL : string) (respond : nat → http.Answer)
    (turns : list (OOMEvent * Globals * sql.DB)) (st : Main) :
  let final := mainLoop Marshal webhookURL respond turns st in
  posted st `prefix_of` posted final ∧
  (length (posted final) ≤ length (posted st) + 2 * length turns)%nat ∧
  ((∀ data, (Marshal data).2 = None) →
   Forall (λ turn, allocated turn.1.2) turns →
   panicked st = false →
   panicked final = false ∧
   (length (posted st) + length turns ≤ length (posted final))%nat).
Proof.
  cbn zeta. unfold mainLoop. revert st.
  induction turns as [|turn turns IH]; intros st; cbn [fold_left].
  { split_and!; [done|cbn; lia|]. intros _ _ Hst. split; [done|cbn; lia]. }
  destruct (mainStep_posts Marshal webhookURL respond st turn) as [Hpre Hlen].
  destruct (IH (mainStep Marshal webhookURL respond st turn)) as (Hpre' & Hlen' & Hlow).
  split_and!; [by etrans|cbn [length]; lia|].
  intros HM Hall Hst. apply Forall_cons in Hall as [Hg Hall].
  destruct turn as [[event g] db].
  destruct (mainStep_posts_once Marshal webhookURL respond st event g db HM Hg Hst)
    as [Hst' Hone].
  destruct (Hlow HM Hall Hst') as [Hfin Hmany]. split; [done|]. cbn [length]. lia.
Qed.

Lemma consumer_posts_once_or_twice_per_signal_witness :
  panicked (mainLoop emptyMarshal "http://hook" rejecting
              [(signal_node3_500, memory_with_old, sql.Up [record_at_90] 100);
               (signal_node3_500, initial, sql.Up [] 100)] startOfMain) = false ∧
  (length (posted startOfMain) + 2
   ≤ length (posted (mainLoop emptyMarshal "http://hook" rejecting
                       [(signal_node3_500, memory_with_old, sql.Up [record_at_90] 100);
                        (signal_node3_500, initial, sql.Up [] 100)] startOfMain)))%nat.
Proof.
  apply (proj2 (proj2 (consumer_posts_once_or_twice_per_signal emptyMarshal "http://hook"
                         rejecting
                         [(signal_node3_500, memory_with_old, sql.Up [record_at_90] 100);
                          (signal_node3_500, initial, sql.Up [] 100)] startOfMain))).
  - done.
  - apply Forall_cons. split; [intros p; cbn; intros [= <-]; lia|].
    apply Forall_cons. split; [by intros p|apply Forall_nil_2].
  - done.
Defined.

(** X12.  A failed delivery of a pod alert is itself reported through the
    webhook.  When [handleOOM] has resolved the occurrence and its call of
    [postMessage] returns an error, the loop of [main] hands that error to
    [handleError], which posts the alert for the error; the turn logs a
    line only when this second call fails too, and the line is the error of
    the second call. *)
Theorem failed_delivery_is_reported_to_the_webhook
    (Marshal : gmap string string → string * option error)
    (webhookURL : string) (respond : nat → http.Answer)
    (event : OOMEvent) (g : Globals) (db : sql.DB) (pod : PodInfo) (nspid : Z)
    (st : Main) (p : list http.Request) (err : error) :
  panicked st = false →
  Error event = None →
  Resolved event g db pod nspid →
  postMessage Marshal webhookURL respond (podAlert pod event nspid) (posted st)
  = (p, Some err) →
  let step := mainStep Marshal webhookURL respond st (event, g, db) in
  let second := postMessage Marshal webhookURL respond (errorAlert err) p in
  posted step = second.1 ∧
  panicked step = false ∧
  logged step =
  logged st ++ match second.2 with Some err' => [error_Error err'] | None => [] end.
Proof.
  intros Hst Hev Hres Hpost. cbn zeta.
  rewrite mainStep_posted, mainStep_panicked, mainStep_logged, Hev by done.
  rewrite (handleOOM_Resolved Marshal webhookURL respond _ _ _ _ _ (posted st) Hres).
  by rewrite Hpost.
Qed.

Lemma failed_delivery_is_reported_to_the_webhook_witness :
  posted (mainStep emptyMarshal "http://hook" rejecting startOfMain
            (signal_node3_500, memory_with_old, sql.Up [record_at_90] 100))
  = [requestFor emptyMarshal "http://hook"
       (podAlert {| Name := "db-0"; Namespace := "prod" |} signal_node3_500 11);
     requestFor emptyMarshal "http://hook"
       (errorAlert (Errorf "Failed to POST: 500 Internal Server Error"))].
Proof.
  exact (proj1 (failed_delivery_is_reported_to_the_webhook emptyMarshal "http://hook"
                  rejecting signal_node3_500 memory_with_old (sql.Up [record_at_90] 100)
                  {| Name := "db-0"; Namespace := "prod" |} 11 startOfMain
                  [requestFor emptyMarshal "http://hook"
                     (podAlert {| Name := "db-0"; Namespace := "prod" |} signal_node3_500 11)]
                  (Errorf "Failed to POST: 500 Internal Server Error")
                  eq_refl eq_refl resolved_old eq_refl)).
Defined.

(** ** From the event to the webhook *)

(** X13.  From the event to the webhook.  For an added [OOMKilling] event
    of a node whose message gives a PID, the event watcher sends the one
    success signal with the node and the PID; and when the occurrence is
    resolved to a pod, the payload is serialized and the webhook answers
    with a status from 200 to 299, the turn of the loop for that signal adds
    the one request with the alert for the pod and logs nothing. *)
Theorem oom_event_is_alerted
    (Marshal : gmap string string → string * option error)
    (webhookURL : string) (respond : nat → http.Answer)
    (node message rv rv0 : string) (pid : Z)
    (g : Globals) (db : sql.DB) (pod : PodInfo) (nspid : Z) (st : Main)
    (StatusCode : Z) (Status : string) :
  let signal := {| Node := node; PID := pid; Error := None |} in
  extractPID message = (pid, None) →
  Resolved signal g db pod nspid →
  (Marshal (podAlert pod signal nspid)).2 = None →
  respond (length (posted st)) = http.Response StatusCode Status →
  200 ≤ StatusCode ≤ 299 →
  panicked st = false →
  sent (eventEvents [oomKilling node message rv] rv0).1 = [signal] ∧
  mainLoop Marshal webhookURL respond [(signal, g, db)] st =
  {| posted := posted st ++ [requestFor Marshal webhookURL (podAlert pod signal nspid)];
     logged := logged st;
     panicked := false |}.
Proof.
  intros signal Hpid Hres HM Hresp Hcode Hst. split.
  { rewrite oomKilling_signals, Hpid. done. }
  unfold mainLoop. cbn [fold_left].
  pose proof (mainStep_posted Marshal webhookURL respond st signal g db Hst) as Hp.
  pose proof (mainStep_panicked Marshal webhookURL respond st signal g db Hst) as Hpa.
  pose proof (mainStep_logged Marshal webhookURL respond st signal g db Hst) as Hl.
  rewrite (handleOOM_Resolved Marshal webhookURL respond _ _ _ _ _ (posted st) Hres)
    in Hp, Hpa, Hl.
  assert (Hpost : postMessage Marshal webhookURL respond (podAlert pod signal nspid) (posted st)
                  = (posted st ++ [requestFor Marshal webhookURL (podAlert pod signal nspid)], None)).
  { unfold postMessage, requestFor.
    destruct (Marshal (podAlert pod signal nspid)) as [jsonValue [e|]]; [done|].
    rewrite Hresp. cbn.
    destruct (Z.ltb_spec StatusCode 200); [lia|].
    destruct (Z.ltb_spec 299 StatusCode); [lia|]. done. }
  rewrite Hpost in Hp, Hpa, Hl. cbn -[mainStep] in Hp, Hpa, Hl. rewrite app_nil_r in Hl.
  destruct (mainStep _ _ _ _ _) as [p l pa]. cbn in *. by subst.
Qed.

Lemma oom_event_is_alerted_witness :
  sent (eventEvents [oomKilling "node-3" "Kill process 500 (java)" "42"] "41").1
  = [signal_node3_500] ∧
  mainLoop emptyMarshal "http://hook" accepting
    [(signal_node3_500, memory_with_old, sql.Up [record_at_90] 100)] startOfMain =
  {| posted := [requestFor emptyMarshal "http://hook"
                  (podAlert {| Name := "db-0"; Namespace := "prod" |} signal_node3_500 11)];
     logged := [];
     panicked := false |}.
Proof.
  exact (oom_event_is_alerted emptyMarshal "http://hook" accepting
           "node-3" "Kill process 500 (java)" "42" "41" 500
           memory_with_old (sql.Up [record_at_90] 100)
           {| Name := "db-0"; Namespace := "prod" |} 11 startOfMain 200 "200 OK"
           eq_refl resolved_old eq_refl eq_refl ltac:(lia) eq_refl).
Defined.

(** X14.  An event that passes the filters and whose message gives no PID
    leads to two alerts.  The event watcher sends the failure signal and
    then a success signal for the node with PID 0; when the database has no
    record for the node and PID 0, the loop posts the alert for the
    extraction error and then the alert "No ps record for node <node> and
    PID 0". *)
Theorem unparsable_oom_event_gives_two_alerts
    (Marshal : gmap string string → string * option error)
    (webhookURL : string) (respond : nat → http.Answer)
    (node message rv rv0 : string) (err : error)
    (g g' : Globals) (records : list sql.Row) (now : Z) (db : sql.DB) (st : Main) :
  (extractPID message).2 = Some err →
  sql.selectRows records now node 0 = [] →
  (∀ data, (Marshal data).2 = None) →
  panicked st = false →
  let failure := {| Node := EmptyString; PID := 0; Error := Some err |} in
  let success := {| Node := node; PID := 0; Error := None |} in
  sent (eventEvents [oomKilling node message rv] rv0).1 = [failure; success] ∧
  posted (mainLoop Marshal webhookURL respond
            [(failure, g, db); (success, g', sql.Up records now)] st) =
  posted st ++
  [requestFor Marshal webhookURL (errorAlert err);
   requestFor Marshal webhookURL
     (errorAlert (Errorf ("No ps record for node " +:+ node +:+ " and PID 0")))].
Proof.
  intros Herr Hsel HM Hst failure success. split.
  { rewrite oomKilling_signals.
    destruct (extractPID_range message) as [_ Hz].
    destruct (extractPID message) as [pid [e|]]; cbn in *; [|done].
    injection Herr as ->. by rewrite Hz. }
  unfold mainLoop. cbn [fold_left].
  pose proof (mainStep_posted Marshal webhookURL respond st failure g db Hst) as Hp.
  pose proof (mainStep_panicked Marshal webhookURL respond st failure g db Hst) as Hpa.
  cbn [Error failure] in Hp, Hpa. rewrite postMessage_posted, HM in Hp.
  set (st1 := mainStep Marshal webhookURL respond st (failure, g, db)) in *.
  rewrite (mainStep_posted Marshal webhookURL respond st1 success g' _ Hpa).
  cbn [Error success].
  rewrite (handleOOM_Unresolved Marshal webhookURL respond success g' _ _ (posted st1)
             (NoRecord success g' records now Hsel)).
  rewrite postMessage_posted, HM, Hp, <- app_assoc. done.
Qed.

Lemma unparsable_oom_event_gives_two_alerts_witness :
  sent (eventEvents [oomKilling "node-3" "out of memory" "42"] "41").1
  = [{| Node := EmptyString; PID := 0;
        Error := Some (Errorf "Event message does not match: out of memory") |};
     {| Node := "node-3"; PID := 0; Error := None |}] ∧
  posted (mainLoop emptyMarshal "http://hook" accepting
            [({| Node := EmptyString; PID := 0;
                 Error := Some (Errorf "Event message does not match: out of memory") |},
              initial, sql.Up [] 100);
             ({| Node := "node-3"; PID := 0; Error := None |}, initial, sql.Up [] 100)]
            startOfMain) =
  [] ++
  [requestFor emptyMarshal "http://hook"
     (errorAlert (Errorf "Event message does not match: out of memory"));
   requestFor emptyMarshal "http://hook"
     (errorAlert (Errorf ("No ps record for node " +:+ "node-3" +:+ " and PID 0")))].
Proof.
  exact (unparsable_oom_event_gives_two_alerts emptyMarshal "http://hook" accepting
           "node-3" "out of memory" "42" "41"
           (Errorf "Event message does not match: out of memory")
           initial initial [] 100 (sql.Up [] 100) startOfMain
           eq_refl eq_refl (λ _, eq_refl) eq_refl).
Defined.

(** ** From the snapshot to the lookup *)

(** X15.  From the snapshot to the lookup.  After a call of
    [internalPodIndexer] has loaded a snapshot and watched any sequence of
    add, remove and modify notifications, a lookup whose record names the
    UID [uid] ends as the call of [postMessage] with the alert for the pod
    whose addition is the last notification that adds or removes [uid]; when
    there is no such addition the lookup returns the error "Pod with UID
    <uid> is not known" and posts nothing. *)
Theorem indexed_pod_is_found
    (Marshal : gmap string string → string * option error)
    (webhookURL : string) (respond : nat → http.Answer)
    (l : ListOf v1.Pod) (ss : list (float64.t * list Notification)) (g : Globals)
    (event : OOMEvent) (records : list sql.Row) (now : Z)
    (r : sql.Row) (rest : list sql.Row) (uid : UID) (posted : list http.Request) :
  sql.selectRows records now (Node event) (PID event) = r :: rest →
  extractUID (sql.cgroup r) = (uid, None) →
  let g' := (internalPodIndexer (Ok l) (session <$> ss) g).2.1.1 in
  let out := handleOOM Marshal webhookURL respond event g' (sql.Up records now) posted in
  (∀ pod, LastAdded uid pod (seen l ss) →
     out = ((postMessage Marshal webhookURL respond
               (podAlert (podInfo pod) event (sql.nspid r)) posted).1,
            Done (postMessage Marshal webhookURL respond
                    (podAlert (podInfo pod) event (sql.nspid r)) posted).2)) ∧
  ((∀ pod, ¬ LastAdded uid pod (seen l ss)) →
     out = (posted, Done (Some (Errorf ("Pod with UID " +:+ uid +:+ " is not known"))))).
Proof.
  intros Hsel Huid g' out.
  destruct (internalPodIndexer_sessions l ss g) as (acts & g'' & Heq & Hp & Hm).
  assert (Hg' : g' = g'') by (unfold g'; by rewrite Heq). subst g''.
  split.
  - intros pod Hlast. apply handleOOM_Resolved.
    exists records, now, r, rest, uid, (length (heap g)), (foldl applyNotification ∅ (seen l ss)).
    split_and!; [done..| |done]. apply fold_LastAdded. by exists pod.
  - intros Hnone. apply handleOOM_Unresolved.
    eapply UnknownUID; [done..|].
    destruct (foldl applyNotification ∅ (seen l ss) !! uid) as [info|] eqn:Hinfo; [|done].
    apply fold_LastAdded in Hinfo as (pod & Hlast & _). by destruct (Hnone pod).
Qed.

Lemma indexed_pod_is_found_witness :
  handleOOM emptyMarshal "http://hook" accepting signal_node3_500
    (internalPodIndexer (Ok {| Items := [pod_u1]; ResourceVersion := "1" |})
       (session <$> []) initial).2.1.1
    (sql.Up [record_at_100] 101) [] =
  ((postMessage emptyMarshal "http://hook" accepting
      (podAlert (podInfo pod_u1) signal_node3_500 12) []).1,
   Done (postMessage emptyMarshal "http://hook" accepting
           (podAlert (podInfo pod_u1) signal_node3_500 12) []).2).
Proof.
  refine (proj1 (indexed_pod_is_found emptyMarshal "http://hook" accepting
                   {| Items := [pod_u1]; ResourceVersion := "1" |} [] initial
                   signal_node3_500 [record_at_100] 101 record_at_100 [] "u1" []
                   _ _) pod_u1 _).
  - by vm_compute.
  - by vm_compute.
  - exists [], []. split_and!; [done|done|constructor].
Defined.

(** ** The UID of the leftmost segment *)

Lemma slash_not_word_or_dash rest :
  starts_with word_or_dash ("/" +:+ rest) = false.
Proof. by rewrite Str.app_cons. Qed.

Lemma cgroup_match_at uid rest :
  uid ≠ EmptyString → Str.all word_or_dash uid = true →
  matchHere cgroupRegExp ("/pod" +:+ uid +:+ "/" +:+ rest) EmptyString
  = Some (uid, rest).
Proof.
  intros Hne Hall. unfold cgroupRegExp. rewrite matchHere_lits.
  destruct (splits_longest word_or_dash uid ("/" +:+ rest)) as [l Hl];
    [done..|apply slash_not_word_or_dash|].
  cbn. rewrite Hl. cbn. rewrite Str.app_cons, Str.app_nil_l. by cbn.
Qed.

(** X2.  When a cgroup path has a [/pod<uid>/] segment and no such segment
    starts further to the left, [extractUID] returns the [uid] of that
    segment and no error, whatever precedes and follows the segment. *)
Theorem extractUID_of_leftmost_segment (cgroup pre uid rest : string) :
  UidSegment cgroup pre uid rest →
  (∀ pre' uid' rest', UidSegment cgroup pre' uid' rest' →
     (String.length pre ≤ String.length pre')%nat) →
  extractUID cgroup = (uid, None).
Proof.
  intros (-> & Hne & Hall) Hleft.
  destruct (Find_skip cgroupRegExp pre ("/pod" +:+ uid +:+ "/" +:+ rest) uid rest)
    as (l & Hl & Hcap).
  - intros pre1 pre2 -> Hne2.
    destruct (matchHere cgroupRegExp _ EmptyString) as [[cap rest']|] eqn:Hm; [|done].
    exfalso. apply cgroup_match_here in Hm.
    apply (UidSegment_shift _ pre1) in Hm. rewrite <- Str.app_assoc in Hm.
    apply Hleft in Hm. rewrite Str.length_app in Hm.
    destruct pre2; [done|]. cbn in Hm. lia.
  - by apply cgroup_match_at.
  - unfold extractUID. by rewrite Hl, Hcap.
Qed.

Lemma extractUID_of_leftmost_segment_witness :
  UidSegment "/pod0f6a3a5c-7a0b/docker-1" EmptyString "0f6a3a5c-7a0b" "docker-1" ∧
  extractUID "/pod0f6a3a5c-7a0b/docker-1" = ("0f6a3a5c-7a0b", None).
Proof.
  assert (H : UidSegment "/pod0f6a3a5c-7a0b/docker-1" EmptyString "0f6a3a5c-7a0b" "docker-1").
  { split_and!; [reflexivity|done|reflexivity]. }
  split; [exact H|].
  apply (extractUID_of_leftmost_segment _ _ _ _ H). intros pre' uid' rest' _. cbn. lia.
Defined.

(** ** The order of the records *)

Lemma orderByTsDesc_head l r rest :
  sql.orderByTsDesc l = r :: rest →
  r ∈ l ∧ ∀ r', r' ∈ l → sql.ts r' ≤ sql.ts r.
Proof.
  intros Heq.
  pose proof (sql_facts.orderByTsDesc_sorted l) as Hsorted.
  pose proof (λ x, sql_facts.elem_of_orderByTsDesc x l) as Hperm.
  rewrite Heq in *. split; [apply Hperm; left|].
  intros r' [->|Hin]%Hperm%elem_of_cons; [lia|].
  apply StronglySorted_inv in Hsorted as [_ Hall].
  by eapply Forall_forall in Hall.
Qed.

(** X16.  The lookup does not depend on the order in which the table
    holds its records: when no two different records for the host and the
    process id that are older than the query time have the same timestamp,
    the query returns the same row for every permutation of the table. *)
Theorem lookup_ignores_the_order_of_records
    (records records' : list sql.Row) (now : Z) (node : string) (processId : Z) :
  records ≡ₚ records' →
  (∀ r r', r ∈ records → r' ∈ records →
     Candidate node processId now r → Candidate node processId now r' →
     sql.ts r = sql.ts r' → r = r') →
  sql.selectRows records now node processId
  = sql.selectRows records' now node processId.
Proof.
  intros Hperm Hdistinct. unfold sql.selectRows.
  set (sel := filter _ records). set (sel' := filter _ records').
  assert (Hsel : ∀ r, r ∈ sel ↔ Candidate node processId now r ∧ r ∈ records).
  { intros r. unfold sel. by rewrite list_elem_of_filter, sql_facts.where_Candidate. }
  assert (Hsel' : ∀ r, r ∈ sel' ↔ Candidate node processId now r ∧ r ∈ records).
  { intros r. unfold sel'. by rewrite list_elem_of_filter, sql_facts.where_Candidate, Hperm. }
  destruct (sql.orderByTsDesc sel) as [|r l] eqn:Ho;
    destruct (sql.orderByTsDesc sel') as [|r' l'] eqn:Ho'; cbn.
  - done.
  - exfalso. apply orderByTsDesc_head in Ho' as [Hin _].
    apply Hsel', Hsel, sql_facts.elem_of_orderByTsDesc in Hin.
    rewrite Ho in Hin. by apply elem_of_nil in Hin.
  - exfalso. apply orderByTsDesc_head in Ho as [Hin _].
    apply Hsel, Hsel', sql_facts.elem_of_orderByTsDesc in Hin.
    rewrite Ho' in Hin. by apply elem_of_nil in Hin.
  - apply orderByTsDesc_head in Ho as [Hin Hmax].
    apply orderByTsDesc_head in Ho' as [Hin' Hmax'].
    pose proof (Hmax r' (proj2 (Hsel r') (proj1 (Hsel' r') Hin'))) as Hle.
    pose proof (Hmax' r (proj2 (Hsel' r) (proj1 (Hsel r) Hin))) as Hle'.
    apply Hsel in Hin as [Hc Hin]. apply Hsel' in Hin' as [Hc' Hin'].
    f_equal. apply Hdistinct; [done..|lia].
Qed.

Lemma lookup_ignores_the_order_of_records_witness :
  sql.selectRows [record_at_90; record_at_100] 101 "node-3" 500
  = sql.selectRows [record_at_100; record_at_90] 101 "node-3" 500.
Proof.
  apply lookup_ignores_the_order_of_records.
  - apply perm_swap.
  - intros r r' Hr Hr' _ _ Hts.
    apply elem_of_cons in Hr as [->|Hr]; [|apply list_elem_of_singleton in Hr as ->];
      (apply elem_of_cons in Hr' as [->|Hr']; [|apply list_elem_of_singleton in Hr' as ->]);
      done.
Defined.
